(** * Candela: loss and metric arithmetic of the hierarchical seq2seq model

    A shallow embedding of [modules/model.py] (class [Candela]): the masked
    sequence loss [compute_loss], the phrase-attention supervision loss
    [compute_ph_attn_loss], the clamped perplexity metric [compute_ppl], the
    phrase-bank aggregation of [forward] and the checkpoint reconstruction
    [load_from_checkpoint].

    Numeric model.  A tensor is a shape together with its row-major data, as
    a contiguous torch tensor is.  The float tensors are float32 tensors
    (the default type, and the [dtype=torch.float] of [compute_ppl]).  A
    finite float is a real number: rounding is not modelled.  Overflow is:
    an operation whose exact result reaches [float_limit] in magnitude gives
    an infinity, and infinities and NaN propagate as IEEE 754 prescribes
    ([inf * 0] is NaN).  These values are tracked by [xreal].  The readouts
    that enter are finite floats, so they are reals.  Integer (long) tensors
    hold [Z], boolean masks hold [bool].  A raised Python exception is the
    outcome [Raise]. *)

From stdpp Require Import gmap strings list.
From Stdlib Require Import Reals Lra Lia ZArith.

Local Open Scope R_scope.

(** ** Outcomes: a value, or a raised exception *)

Inductive exn := RuntimeError | IndexError | KeyError | AssertionError | ValueError.

Inductive result (A : Type) := Ok (a : A) | Raise (e : exn).
Arguments Ok {A} a.
Arguments Raise {A} e.

#[global] Instance result_ret : MRet result := @Ok.
#[global] Instance result_bind : MBind result :=
  fun A B f m => match m with Ok a => f a | Raise e => Raise e end.

(** ** Float values: finite, infinite, NaN *)

Inductive xreal := Finite (r : R) | PosInf | NegInf | NaN.

#[global] Instance Rle_decision (x y : R) : Decision (x <= y) := Rle_dec x y.
#[global] Instance Rlt_decision (x y : R) : Decision (x < y) := Rlt_dec x y.
#[global] Instance Req_decision : EqDecision R := Req_dec_T.
#[global] Instance xreal_eq_decision : EqDecision xreal.
Proof. solve_decision. Defined.

(** The least magnitude that float32 rounds to an infinity: [2^128 - 2^103],
    half a step above the largest finite float. *)
Definition float_limit : R := 340282356779733661637539395458142568448.

(** The float that holds the exact result [r] of an operation. *)
Definition fin (r : R) : xreal :=
  if decide (float_limit <= r) then PosInf
  else if decide (r <= - float_limit) then NegInf
  else Finite r.

Definition xneg (a : xreal) : xreal :=
  match a with
  | Finite r => Finite (- r)
  | PosInf => NegInf
  | NegInf => PosInf
  | NaN => NaN
  end.

(** The infinity whose sign is that of [x] times the sign flag [pos]; a zero
    [x] gives NaN. *)
Definition signed_inf (pos : bool) (x : R) : xreal :=
  if decide (x = 0) then NaN
  else if bool_decide (0 < x) then (if pos then PosInf else NegInf)
  else (if pos then NegInf else PosInf).

(** [a * b] on floats. *)
Definition xmul (a b : xreal) : xreal :=
  match a, b with
  | NaN, _ | _, NaN => NaN
  | Finite x, Finite y => fin (x * y)
  | PosInf, Finite y | Finite y, PosInf => signed_inf true y
  | NegInf, Finite y | Finite y, NegInf => signed_inf false y
  | PosInf, PosInf | NegInf, NegInf => PosInf
  | PosInf, NegInf | NegInf, PosInf => NegInf
  end.

(** [a / d] on floats, for a finite divisor [d]: a zero divisor gives an
    infinity or a NaN, never an exception. *)
Definition xquot (a : xreal) (d : R) : xreal :=
  match a with
  | NaN => NaN
  | Finite x =>
      if decide (d = 0) then
        (if decide (x = 0) then NaN else if decide (0 < x) then PosInf else NegInf)
      else fin (x / d)
  | PosInf => if decide (d < 0) then NegInf else PosInf
  | NegInf => if decide (d < 0) then PosInf else NegInf
  end.

(** [x / y] for finite [x] and [y] whose quotient is in the float range: a
    zero divisor gives an infinity or a NaN, never an exception. *)
Definition xdiv (x y : R) : xreal :=
  if decide (y = 0) then
    (if decide (x = 0) then NaN else if decide (0 < x) then PosInf else NegInf)
  else Finite (x / y).

(** [torch.min(a, c)] element: a NaN propagates. *)
Definition xmin (a : xreal) (c : R) : xreal :=
  match a with
  | Finite r => Finite (Rmin r c)
  | PosInf => Finite c
  | NegInf => NegInf
  | NaN => NaN
  end.

(** [torch.exp] element: the exponential overflows to an infinity. *)
Definition xexp (a : xreal) : xreal :=
  match a with
  | Finite r => fin (exp r)
  | PosInf => PosInf
  | NegInf => Finite 0
  | NaN => NaN
  end.

Definition xadd (a b : xreal) : xreal :=
  match a, b with
  | Finite x, Finite y => fin (x + y)
  | NaN, _ | _, NaN => NaN
  | PosInf, NegInf | NegInf, PosInf => NaN
  | PosInf, _ | _, PosInf => PosInf
  | NegInf, _ | _, NegInf => NegInf
  end.

(** ** Tensors *)

Record tensor (A : Type) := Tensor { shape : list nat; data : list A }.
Arguments Tensor {A} shape data.
Arguments shape {A} t.
Arguments data {A} t.

Definition numel (s : list nat) : nat := foldr Nat.mul 1%nat s.

Definition tmap {A B} (f : A -> B) (t : tensor A) : tensor B :=
  Tensor (shape t) (f <$> data t).

(** [n] consecutive blocks of [k] elements. *)
Fixpoint chunks {A} (k n : nat) (l : list A) : list (list A) :=
  match n with
  | O => []
  | S n' => take k l :: chunks k n' (drop k l)
  end.

(** [t.view(-1, k)] *)
Definition view_rows {A} (t : tensor A) (k : nat) : result (tensor A) :=
  let n := numel (shape t) in
  if decide (k = 0%nat) then Raise RuntimeError
  else if decide (n mod k = 0)%nat then Ok (Tensor [(n / k)%nat; k] (data t))
  else Raise RuntimeError.

(** [t.view] with the sizes [s] given explicitly *)
Definition view_as {A} (t : tensor A) (s : list nat) : result (tensor A) :=
  if decide (numel s = numel (shape t)) then Ok (Tensor s (data t))
  else Raise RuntimeError.

(** [t.size(d)] *)
Definition size_at {A} (t : tensor A) (d : nat) : result nat :=
  match shape t !! d with
  | Some n => Ok n
  | None => Raise IndexError
  end.

(** [t.float()] of an integer tensor and of a boolean tensor. *)
Definition tfloat_int (t : tensor Z) : tensor R := tmap IZR t.
Definition bool_to_R (b : bool) : R := if b then 1 else 0.
Definition tfloat_bool (t : tensor bool) : tensor R := tmap bool_to_R t.

Definition rsum (l : list R) : R := foldr Rplus 0 l.
Definition zsum (l : list Z) : Z := foldr Z.add 0%Z l.

(** [t.sum()] of a tensor of finite floats whose sum stays in the float
    range (the lengths of a batch, the binary cross-entropies of its pairs),
    and of an integer tensor. *)
Definition tsum (t : tensor R) : R := rsum (data t).
Definition tsum_int (t : tensor Z) : Z := zsum (data t).

(** *** Broadcasting of element-wise binary operations *)

Definition broadcast_dim (a b : nat) : option nat :=
  if decide (a = b) then Some a
  else if decide (a = 1%nat) then Some b
  else if decide (b = 1%nat) then Some a
  else None.

(** Shapes are aligned at their trailing dimension: the arguments are the
    reversed shapes. *)
Fixpoint broadcast_rev (r1 r2 : list nat) : option (list nat) :=
  match r1, r2 with
  | [], _ => Some r2
  | _, [] => Some r1
  | a :: r1', b :: r2' =>
      match broadcast_dim a b, broadcast_rev r1' r2' with
      | Some d, Some r => Some (d :: r)
      | _, _ => None
      end
  end.

Definition broadcast_shapes (s1 s2 : list nat) : option (list nat) :=
  reverse <$> broadcast_rev (reverse s1) (reverse s2).

Definition pad_shape (rank : nat) (s : list nat) : list nat :=
  replicate (rank - length s) 1%nat ++ s.

(** The data of a tensor of shape [src] seen at shape [out] (same rank, each
    dimension of [src] equal to that of [out] or 1). *)
Fixpoint expand {A} (src out : list nat) (d : list A) : list A :=
  match src, out with
  | s :: ss, o :: os =>
      if decide (s = o) then concat (expand ss os <$> chunks (numel ss) s d)
      else concat (replicate o (expand ss os d))
  | _, _ => d
  end.

Definition broadcast2 {A B C} (f : A -> B -> C) (x : tensor A) (y : tensor B)
  : result (tensor C) :=
  match broadcast_shapes (shape x) (shape y) with
  | Some s =>
      let r := length s in
      Ok (Tensor s (zip_with f (expand (pad_shape r (shape x)) s (data x))
                               (expand (pad_shape r (shape y)) s (data y))))
  | None => Raise RuntimeError
  end.

(** *** log-softmax, gather, reductions *)

(** The log-softmax of a row of scores as a real function. *)
Definition log_softmax_row (x : list R) : list R :=
  let z := ln (rsum (exp <$> x)) in (fun xi => xi - z) <$> x.

(** The log-softmax of a row of scores in float32.  The scores are taken
    relative to their maximum, so the normaliser never overflows and every
    entry is the float of its real value: a score further below the
    maximum than the float range gets the log-probability [-inf]. *)
Definition log_softmax_f32 (x : list R) : list xreal := fin <$> log_softmax_row x.

(** [F.log_softmax(t, dim=1)] of a matrix; the functions below only apply it
    to the two-dimensional result of [view_rows]. *)
Definition log_softmax_dim1 (t : tensor R) : result (tensor xreal) :=
  match shape t with
  | [n; k] => Ok (Tensor [n; k] (concat (log_softmax_f32 <$> chunks k n (data t))))
  | _ => Raise IndexError
  end.

(** One gathered element: torch rejects an index outside [0, len row). *)
Definition pick {A} (row : list A) (i : Z) : result A :=
  if decide (0 <= i)%Z then
    match row !! Z.to_nat i with
    | Some x => Ok x
    | None => Raise RuntimeError
    end
  else Raise RuntimeError.

(** [torch.gather(input, dim=1, index)] on matrices: [out[i][j] =
    input[i][index[i][j]]]; [index] may have fewer rows than [input]. *)
Definition gather_dim1 {A} (input : tensor A) (index : tensor Z)
  : result (tensor A) :=
  match shape input, shape index with
  | [n; k], [m; j] =>
      if decide (m <= n)%nat then
        rows ← mapM (fun '(row, idx) => mapM (pick row) idx)
                    (zip (chunks k n (data input)) (chunks j m (data index)));
        Ok (Tensor [m; j] (concat rows))
      else Raise RuntimeError
  | _, _ => Raise RuntimeError
  end.

(** Element-wise sum of vectors of length [r]. *)
Definition vsum (r : nat) (vs : list (list R)) : list R :=
  foldr (zip_with Rplus) (replicate r 0) vs.

(** The same on float vectors whose sums can overflow. *)
Definition xvsum (r : nat) (vs : list (list xreal)) : list xreal :=
  foldr (zip_with xadd) (replicate r (Finite 0)) vs.

(** [t.sum(dim=1)] *)
Definition sum_dim1 (t : tensor xreal) : result (tensor xreal) :=
  match shape t with
  | b :: n :: rest =>
      let r := numel rest in
      Ok (Tensor (b :: rest)
                 (concat ((fun blk => xvsum r (chunks r n blk))
                            <$> chunks (n * r) b (data t))))
  | _ => Raise IndexError
  end.

(** [torch.ones(s)] *)
Definition ones (s : list nat) : tensor R := Tensor s (replicate (numel s) 1).

Definition xsum (l : list xreal) : xreal := foldr xadd (Finite 0) l.

(** [t.sum()] of a float tensor whose sum can overflow. *)
Definition tsum_x (t : tensor xreal) : xreal := xsum (data t).

(** [torch.mean(t)]: the sum divided by the element count; the mean of an
    empty tensor is 0/0. *)
Definition tmean (t : tensor xreal) : xreal :=
  xquot (xsum (data t)) (INR (length (data t))).

(** Modelled from the spec: [utils.get_sequence_mask_from_length] is not part
    of the sources at hand.  Section 4.3: a boolean mask with one row per
    example and [max_len] columns, true where the position index is below
    that example's true length and false elsewhere. *)
Definition get_sequence_mask_from_length (seq_len : tensor Z) (max_len : nat)
  : tensor bool :=
  Tensor [length (data seq_len); max_len]
         (concat ((fun len => (fun t => bool_decide (Z.of_nat t < len)%Z)
                                <$> seq 0 max_len) <$> data seq_len)).

(** ** The losses and the metric of [Candela] *)

Definition compute_loss (readouts : tensor R) (targets seq_len : tensor Z)
  (type_cnt : nat) : result xreal :=
  readouts_flat ← view_rows readouts type_cnt;
  log_probs_flat ← log_softmax_dim1 readouts_flat;
  dec_targets_flat ← view_rows targets 1;
  gathered ← gather_dim1 log_probs_flat dec_targets_flat;
  let losses_flat := tmap xneg gathered in
  losses ← view_as losses_flat (shape targets);
  max_len ← size_at targets 1;
  let mask := get_sequence_mask_from_length seq_len max_len in
  losses ← broadcast2 xmul losses (tmap Finite (tfloat_bool mask));
  Ok (xquot (tsum_x losses) (tsum (tfloat_int seq_len))).

(** [torch.log] as [F.binary_cross_entropy] uses it: the logarithm is clamped
    below at -100, so that a probability of 0 gives a finite term. *)
Definition clamped_log (x : R) : R :=
  if decide (x <= 0) then -100 else Rmax (ln x) (-100).

Definition bce (p y : R) : R :=
  - (y * clamped_log p + (1 - y) * clamped_log (1 - p)).

(** [F.binary_cross_entropy(input, target, reduction='none')]: the two
    tensors must have one shape, and every input must lie in [0, 1]. *)
Definition binary_cross_entropy (input target : tensor R) : result (tensor R) :=
  if decide (shape input = shape target) then
    if decide (Forall (fun p => 0 <= p /\ p <= 1) (data input)) then
      Ok (Tensor (shape input) (zip_with bce (data input) (data target)))
    else Raise RuntimeError
  else Raise ValueError.

Definition compute_ph_attn_loss (ph_sel_target : tensor Z)
  (align_vectors : tensor R) (mask : tensor Z) : result xreal :=
  loss ← binary_cross_entropy align_vectors (tfloat_int ph_sel_target);
  masked_loss ← broadcast2 Rmult loss (tfloat_int mask);
  Ok (xdiv (tsum masked_loss) (IZR (tsum_int mask))).

(** The body of [compute_ppl] up to [ppl_lst], the per-example perplexities.
    The [.cuda()] placement of the ceiling tensor does not change values and
    is not modelled. *)
Definition per_example_ppl (word_vocab_size : nat) (readouts : tensor R)
  (targets seq_len : tensor Z) : result (tensor xreal) :=
  let norm_term := tsum (tfloat_int seq_len) in
  readouts_flat ← view_rows readouts word_vocab_size;
  log_probs_flat ← log_softmax_dim1 readouts_flat;
  target_flat ← view_rows targets 1;
  gathered ← gather_dim1 log_probs_flat target_flat;
  let losses_flat := tmap xneg gathered in
  losses ← view_as losses_flat (shape targets);
  max_len ← size_at targets 1;
  let mask := get_sequence_mask_from_length seq_len max_len in
  losses ← broadcast2 xmul losses (tmap Finite (tfloat_bool mask));
  losses_sum ← sum_dim1 losses;
  probs_normalized ← broadcast2 xquot losses_sum (tfloat_int seq_len);
  let ceiling := tmap (Rmult 100) (ones (shape probs_normalized)) in
  probs_normalized ← broadcast2 xmin probs_normalized ceiling;
  Ok (tmap xexp probs_normalized).

Definition compute_ppl (word_vocab_size : nat) (readouts : tensor R)
  (targets seq_len : tensor Z) : result xreal :=
  ppl_lst ← per_example_ppl word_vocab_size readouts targets seq_len;
  Ok (tmean ppl_lst).

(** ** The phrase-bank aggregation of [forward] *)

(** One looked-up row of the embedding table; an id outside the table is an
    error. *)
Definition lookup_row (table : list (list R)) (i : Z) : result (list R) :=
  if decide (0 <= i)%Z then
    match table !! Z.to_nat i with
    | Some row => Ok row
    | None => Raise IndexError
    end
  else Raise IndexError.

(** [embedding(ids)]: every id is replaced by its row of the weight matrix;
    the result has one more dimension than [ids]. *)
Definition embedding (weight : tensor R) (ids : tensor Z) : result (tensor R) :=
  match shape weight with
  | [v; d] =>
      rows ← mapM (lookup_row (chunks d v (data weight))) (data ids);
      Ok (Tensor (shape ids ++ [d]) (concat rows))
  | _ => Raise RuntimeError
  end.

(** [torch.sum(t, -2)]: the sum along the last but one dimension. *)
Definition sum_dim_m2 (t : tensor R) : result (tensor R) :=
  match reverse (shape t) with
  | d :: l :: rpre =>
      Ok (Tensor (reverse rpre ++ [d])
                 (concat ((fun blk => vsum d (chunks d l blk))
                            <$> chunks (l * d) (numel rpre) (data t))))
  | _ => Raise IndexError
  end.


(** ** Batches given as nested lists, and the tensors that hold them *)

(** The [B x T x C] readout tensor of a batch given example by example,
    position by position. *)
Definition readouts_tensor (B T C : nat) (rs : list (list (list R))) : tensor R :=
  Tensor [B; T; C] (concat (concat rs)).

Definition matrix_tensor {A} (B T : nat) (rows : list (list A)) : tensor A :=
  Tensor [B; T] (concat rows).

Definition vector_tensor {A} (l : list A) : tensor A := Tensor [length l] l.

(** [rs] holds [B] examples of [T] positions of [C] scores. *)
Definition readouts_shaped (B T C : nat) (rs : list (list (list R))) : Prop :=
  length rs = B /\
  Forall (fun ex => length ex = T /\ Forall (fun p => length p = C) ex) rs.

Definition matrix_shaped {A} (B T : nat) (rows : list (list A)) : Prop :=
  length rows = B /\ Forall (fun r => length r = T) rows.

(** Every target is a class index below [C]. *)
Definition targets_in_range (C : nat) (ts : list (list Z)) : Prop :=
  Forall (Forall (fun y => 0 <= y < Z.of_nat C)%Z) ts.

(** ** Reference definitions, written from the specification *)

(** Section 4.3: the negative log-probability of the target class. *)
Definition spec_nll (scores : list R) (y : Z) : R :=
  - default 0 (log_softmax_row scores !! Z.to_nat y).

(** Section 4.3: true where the position index is below the true length. *)
Definition spec_mask (len : Z) (T : nat) : list bool :=
  (fun t => bool_decide (Z.of_nat t < len)%Z) <$> seq 0 T.

(** The per-position losses of one example, zeroed at padding positions. *)
Definition spec_masked_losses (positions : list (list R)) (tgts : list Z)
  (len : Z) : list R :=
  zip_with (fun l (valid : bool) => if valid then l else 0)
           (zip_with spec_nll positions tgts)
           (spec_mask len (length tgts)).

Definition spec_example_loss (ex : list (list R) * list Z) (len : Z) : R :=
  rsum (spec_masked_losses ex.1 ex.2 len).

(** Section 4.3: all masked losses summed, divided by the sum of all
    lengths. *)
Definition spec_masked_nll (rs : list (list (list R))) (ts : list (list Z))
  (lens : list Z) : xreal :=
  xdiv (rsum (zip_with spec_example_loss (zip rs ts) lens))
       (rsum (IZR <$> lens)).

(** Section 4.5: one example's summed loss over its own length, clamped
    above by 100, exponentiated. *)
Definition spec_example_ppl (ex : list (list R) * list Z) (len : Z) : R :=
  exp (Rmin (spec_example_loss ex len / IZR len) 100).

(** Section 4.5: the arithmetic mean of the per-example perplexities. *)
Definition spec_ppl (rs : list (list (list R))) (ts : list (list Z))
  (lens : list Z) : xreal :=
  let ppls := zip_with spec_example_ppl (zip rs ts) lens in
  xdiv (rsum ppls) (INR (length ppls)).

(** Section 4.4: binary cross-entropy of each probability against its
    indicator, zero at pairs whose mask is 0. *)
Definition spec_masked_bce (y : Z) (p : R) (m : Z) : R :=
  if decide (m = 0%Z) then 0 else bce p (IZR y).

Definition spec_ph_attn_loss (ys : list Z) (ps : list R) (ms : list Z) : xreal :=
  xdiv (rsum (zip_with (fun '(y, p) m => spec_masked_bce y p m) (zip ys ps) ms))
       (IZR (zsum ms)).


Definition is_finite (v : xreal) : Prop := exists r, v = Finite r.

(** ** Checkpoint reconstruction *)

(** Parameter tensors that are shared by reference live in a store indexed by
    object identity; a [state_dict] maps parameter names to tensors. *)
Abbreviation store := (gmap nat (tensor R)).
Abbreviation state_dict := (gmap string (tensor R)).

(** An [nn.Embedding]: the identity of its weight parameter, and the two
    sizes read off the weight. *)
Record embedding_obj := Embedding {
  weight : nat;
  num_embeddings : nat;
  embedding_dim : nat
}.

(** [nn.Embedding.from_pretrained(embeddings)]: the weight must be a matrix;
    its two sizes become [num_embeddings] and [embedding_dim]. *)
Definition from_pretrained (embeddings : tensor R) (h : store)
  : result (embedding_obj * store) :=
  match shape embeddings with
  | [rows; cols] =>
      let l := fresh (dom h) in
      Ok (Embedding l rows cols, <[l := embeddings]> h)
  | _ => Raise AssertionError
  end.

(** A sub-module that holds the shared embedding under the attribute
    [emb_attr] and owns the parameters [own]. *)
Record component := Component {
  emb_attr : string;
  emb : embedding_obj;
  own : state_dict
}.

Definition emb_key (c : component) : string := emb_attr c +:+ ".weight".

(** [c.load_state_dict(sd)] (strict): the names and the shapes of [sd] must be
    those of the module's own state, else a [RuntimeError]; the tensors are
    then copied into the parameters in place, the shared embedding weight
    included. *)
Definition load_state_dict (c : component) (sd : state_dict) (h : store)
  : result (component * store) :=
  match h !! weight (emb c) with
  | Some table =>
      let expected := <[emb_key c := shape table]> (shape <$> own c) in
      if decide (shape <$> sd = expected) then
        match sd !! emb_key c with
        | Some w =>
            Ok (Component (emb_attr c) (emb c) (delete (emb_key c) sd),
                <[weight (emb c) := w]> h)
        | None => Raise RuntimeError
        end
      else Raise RuntimeError
  | None => Raise RuntimeError
  end.

Definition getitem {V} (d : gmap string V) (k : string) : result V :=
  match d !! k with
  | Some v => Ok v
  | None => Raise KeyError
  end.

Record candela := Candela {
  word_vocab_size : nat;
  global_steps : nat;
  enc : component;
  sp_dec : component;
  wd_dec : component
}.

Section Components.

(** Modelled from the spec: the classes [encoder.EncoderRNN],
    [decoder.SentencePlanner] and [decoder.WordDecoder] are not part of the
    sources at hand.  Section 4.1: each is constructed from the embedding
    table object (not a copy) and the sizes it is given.  The names and
    shapes of the parameters a fresh sub-module owns are the layouts
    below; their initial values are [init].  The encoder and the planner
    hold the table as [embedding] (the checkpoint key
    [embedding.weight] and [self.sp_dec.embedding] in [forward]); the
    attribute of the word decoder is [wd_emb_attr]. *)
Variable enc_layout : nat -> nat -> gmap string (list nat).
Variable sp_layout : nat -> nat -> gmap string (list nat).
Variable wd_layout : nat -> nat -> nat -> gmap string (list nat).
Variable wd_emb_attr : string.
Variable init : list nat -> list R.

Definition fresh_params (layout : gmap string (list nat)) : state_dict :=
  (fun s => Tensor s (init s)) <$> layout.

Definition EncoderRNN (embedding : embedding_obj) (emb_size hidden_size : nat)
  : component :=
  Component "embedding" embedding (fresh_params (enc_layout emb_size hidden_size)).

Definition SentencePlanner (hidden_size : nat) (word_emb : embedding_obj)
  (word_emb_size : nat) : component :=
  Component "embedding" word_emb (fresh_params (sp_layout hidden_size word_emb_size)).

Definition WordDecoder (hidden_size : nat) (word_emb : embedding_obj)
  (word_emb_size word_vocab_size : nat) : component :=
  Component wd_emb_attr word_emb
            (fresh_params (wd_layout hidden_size word_emb_size word_vocab_size)).

(** [Candela.__init__] *)
Definition candela_init (word_emb : embedding_obj)
  (word_emb_dim word_vocab_size : nat) : candela :=
  let hidden_size := 512%nat in
  Candela word_vocab_size 0
          (EncoderRNN word_emb word_emb_dim hidden_size)
          (SentencePlanner hidden_size word_emb word_emb_dim)
          (WordDecoder hidden_size word_emb word_emb_dim word_vocab_size).

(** [Candela.load_from_checkpoint]; [ckpt] is the mapping that
    [torch.load(path)] returns. *)
Definition load_from_checkpoint (ckpt : gmap string state_dict) (h : store)
  : result (candela * store) :=
  enc_sd ← getitem ckpt "encoder";
  w ← getitem enc_sd "embedding.weight";
  '(word_emb, h) ← from_pretrained w h;
  let model := candela_init word_emb (embedding_dim word_emb)
                            (num_embeddings word_emb) in
  enc_sd ← getitem ckpt "encoder";
  '(enc', h) ← load_state_dict (enc model) enc_sd h;
  sp_sd ← getitem ckpt "sp_decoder";
  '(sp_dec', h) ← load_state_dict (sp_dec model) sp_sd h;
  wd_sd ← getitem ckpt "wd_decoder";
  '(wd_dec', h) ← load_state_dict (wd_dec model) wd_sd h;
  Ok (Candela (word_vocab_size model) (global_steps model) enc' sp_dec' wd_dec', h).

(** The names and shapes that a section must have to be loaded into a
    fresh sub-module whose table has [v] rows of [d] entries. *)
Definition expected_shapes (attr : string) (v d : nat)
  (layout : gmap string (list nat)) : gmap string (list nat) :=
  <[attr +:+ ".weight" := [v; d]]> layout.

(** The three sections of a checkpoint have the names and shapes of a
    freshly constructed model whose table has [v] rows of [d] entries. *)
Definition sections_fit (v d : nat) (enc_sd sp_sd wd_sd : state_dict) : Prop :=
  shape <$> enc_sd = expected_shapes "embedding" v d (enc_layout d 512) /\
  shape <$> sp_sd = expected_shapes "embedding" v d (sp_layout 512 d) /\
  shape <$> wd_sd = expected_shapes wd_emb_attr v d (wd_layout 512 d v).

End Components.

(** ** Auxiliary notions used in the statements *)

(** Two batches agree before the true lengths. *)
Definition agree_before_length (rs1 rs2 : list (list (list R)))
  (ts1 ts2 : list (list Z)) (lens : list Z) : Prop :=
  forall (b t : nat) (len : Z),
    lens !! b = Some len -> (Z.of_nat t < len)%Z ->
    (rs1 !! b ≫= (.!! t)) = (rs2 !! b ≫= (.!! t)) /\
    (ts1 !! b ≫= (.!! t)) = (ts2 !! b ≫= (.!! t)).

(** The float loss of a position whose real loss is [r], after the
    multiplication by its mask entry. *)
Definition masked (r : R) (valid : bool) : xreal :=
  xmul (fin r) (Finite (bool_to_R valid)).

(** The row of one example in the masked loss matrix of the code. *)
Definition masked_losses (positions : list (list R)) (tgts : list Z) (len : Z)
  : list xreal :=
  zip_with masked (zip_with spec_nll positions tgts)
           (spec_mask len (length tgts)).

(** The masked loss matrix of a batch, row by row. *)
Definition masked_rows (rs : list (list (list R))) (ts : list (list Z))
  (lens : list Z) : list (list xreal) :=
  zip_with (fun ex len => masked_losses ex.1 ex.2 len) (zip rs ts) lens.

(** The value of one entry of [ppl_lst], whatever the length. *)
Definition example_ppl (ex : list (list R) * list Z) (len : Z) : xreal :=
  xexp (xmin (xquot (xsum (masked_losses ex.1 ex.2 len)) (IZR len)) (100 * 1)).

(** The loss of every position at or beyond the true length of its example
    is in the float range. *)
Definition padding_in_range (rs : list (list (list R))) (ts : list (list Z))
  (lens : list Z) : Prop :=
  forall (b t : nat) (len : Z) (p : list R) (y : Z),
    lens !! b = Some len -> (len <= Z.of_nat t)%Z ->
    (rs !! b ≫= (.!! t)) = Some p -> (ts !! b ≫= (.!! t)) = Some y ->
    spec_nll p y < float_limit.

(** A float that is a sum of losses: not negative, and possibly infinite
    or NaN. *)
Definition nonneg_x (a : xreal) : Prop :=
  match a with
  | Finite r => 0 <= r < float_limit
  | PosInf | NaN => True
  | NegInf => False
  end.

(** The finite part of a float. *)
Definition xpart (a : xreal) : R :=
  match a with Finite r => r | _ => 0 end.

(** The sum of floats that are not negative, whatever the order of the
    additions. *)
Definition xsum_nonneg (l : list xreal) : xreal :=
  if decide (NaN ∈ l) then NaN
  else if decide (PosInf ∈ l) then PosInf
  else fin (rsum (xpart <$> l)).


(** A position whose log-softmax is uniform over five classes. *)
Definition uniform5 (p : list R) : Prop :=
  log_softmax_row p = replicate 5 (- ln 5).





(** A section that holds an embedding table and nothing else, and a
    checkpoint of a model whose sub-modules own no other parameter: the
    encoder and the planner store a one-by-one table, the word decoder
    stores [t]. *)
Definition table_section (t : tensor R) : state_dict :=
  {[ "embedding.weight" := t ]}.

Definition table_only_ckpt (t : tensor R) : gmap string state_dict :=
  <["encoder" := table_section (Tensor [1; 1]%nat [0])]>
    (<["sp_decoder" := table_section (Tensor [1; 1]%nat [0])]>
       {[ "wd_decoder" := table_section t ]}).

(** Every score of a position moved by [c], position by position. *)
Definition shift_position (p : list R) (c : R) : list R :=
  (fun x => x + c) <$> p.

Definition shift_readouts (rs : list (list (list R))) (cs : list (list R))
  : list (list (list R)) :=
  zip_with (zip_with shift_position) rs cs.

(** A batch given as a list of examples: readouts, targets, true length. *)
Definition batch_readouts (exs : list (list (list R) * list Z * Z))
  : list (list (list R)) := (fun e => e.1.1) <$> exs.

Definition batch_targets (exs : list (list (list R) * list Z * Z))
  : list (list Z) := (fun e => e.1.2) <$> exs.

Definition batch_lengths (exs : list (list (list R) * list Z * Z)) : list Z :=
  (fun e => e.2) <$> exs.

(** An example of [T] positions scored over [C] classes with targets that
    are class indices. *)
Definition example_shaped (T C : nat) (e : list (list R) * list Z * Z) : Prop :=
  length e.1.1 = T /\ Forall (fun p => length p = C) e.1.1 /\
  length e.1.2 = T /\ Forall (fun y => 0 <= y < Z.of_nat C)%Z e.1.2.

(** Every phrase of every bank followed by [k] copies of the id [pad]. *)
Definition pad_phrases (k : nat) (pad : Z) (banks : list (list (list Z)))
  : list (list (list Z)) :=
  (fun bank : list (list Z) => (fun ph => ph ++ replicate k pad) <$> bank)
    <$> banks.

(** * Properties *)

(** ** The tensor primitives on concrete tensors *)

Example view_rows_regroups :
  view_rows (Tensor [2; 3]%nat [1; 2; 3; 4; 5; 6]%Z) 2
  = Ok (Tensor [3; 2]%nat [1; 2; 3; 4; 5; 6]%Z).
Proof. reflexivity. Qed.

Example view_rows_rejects_ragged :
  view_rows (Tensor [2; 3]%nat [1; 2; 3; 4; 5; 6]%Z) 4 = Raise RuntimeError.
Proof. reflexivity. Qed.

Example broadcast_row :
  broadcast2 Z.mul (Tensor [2; 3]%nat [1; 2; 3; 4; 5; 6]%Z)
             (Tensor [3]%nat [1; 0; 2]%Z)
  = Ok (Tensor [2; 3]%nat [1; 0; 6; 4; 0; 12]%Z).
Proof. reflexivity. Qed.

Example broadcast_column :
  broadcast2 Z.mul (Tensor [2; 3]%nat [1; 2; 3; 4; 5; 6]%Z)
             (Tensor [2; 1]%nat [1; 0]%Z)
  = Ok (Tensor [2; 3]%nat [1; 2; 3; 0; 0; 0]%Z).
Proof. reflexivity. Qed.

Example broadcast_mismatch :
  broadcast2 Z.mul (Tensor [2; 3]%nat [1; 2; 3; 4; 5; 6]%Z)
             (Tensor [2]%nat [1; 0]%Z)
  = Raise RuntimeError.
Proof. reflexivity. Qed.

Example mask_of_lengths :
  get_sequence_mask_from_length (Tensor [2]%nat [3; 1]%Z) 3
  = Tensor [2; 3]%nat [true; true; true; true; false; false].
Proof. reflexivity. Qed.

Example gather_rejects_index :
  gather_dim1 (Tensor [1; 2]%nat [0; 0]) (Tensor [1; 1]%nat [2]%Z)
  = Raise RuntimeError.
Proof. reflexivity. Qed.

Example sum_dim1_three_dims :
  sum_dim1 (Tensor [1; 2; 2]%nat [PosInf; NegInf; PosInf; PosInf])
  = Ok (Tensor [1; 2]%nat [PosInf; NaN]).
Proof. reflexivity. Qed.

Example sum_dim_m2_matrix :
  sum_dim_m2 (Tensor [3; 2]%nat [1; 2; 3; 4; 5; 6])
  = Ok (Tensor [2]%nat [1 + (3 + (5 + 0)); 2 + (4 + (6 + 0))]).
Proof. reflexivity. Qed.

(** A target outside the class range is an error of [gather]. *)
Example compute_loss_rejects_target :
  compute_loss (readouts_tensor 1 1 2 [[[0; 0]]]) (matrix_tensor 1 1 [[2]]%Z)
               (vector_tensor [1]%Z) 2
  = Raise RuntimeError.
Proof. reflexivity. Qed.

(** Readouts that are not a whole number of rows of [type_cnt] scores are an
    error of [view]. *)
Example compute_loss_rejects_readouts :
  compute_loss (Tensor [1; 1; 3]%nat [0; 0; 0]) (matrix_tensor 1 1 [[0]]%Z)
               (vector_tensor [1]%Z) 2
  = Raise RuntimeError.
Proof. reflexivity. Qed.

(** ** Blocks of a flat list *)

Lemma chunks_concat {A} (k : nat) (rows : list (list A)) :
  Forall (fun r => length r = k) rows ->
  chunks k (length rows) (concat rows) = rows.
Proof.
  induction 1 as [|r rows Hr _ IH]; simpl; [done|].
  rewrite take_app_length', drop_app_length' by done. by rewrite IH.
Qed.

Lemma chunks_concat' {A} (k n : nat) (rows : list (list A)) :
  length rows = n -> Forall (fun r => length r = k) rows ->
  chunks k n (concat rows) = rows.
Proof. intros <-. apply chunks_concat. Qed.

Lemma concat_chunks {A} (k n : nat) (l : list A) :
  length l = (n * k)%nat -> concat (chunks k n l) = l.
Proof.
  revert l; induction n as [|n IH]; intros l Hl; simpl.
  - by destruct l.
  - rewrite IH; [apply take_drop|]. rewrite length_drop. lia.
Qed.

Lemma chunks_Forall_length {A} (k n : nat) (l : list A) :
  length l = (n * k)%nat -> Forall (fun r => length r = k) (chunks k n l).
Proof.
  revert l; induction n as [|n IH]; intros l Hl; simpl; constructor.
  - rewrite length_take. lia.
  - apply IH. rewrite length_drop. lia.
Qed.

Lemma chunks_singletons {A} (l : list A) :
  chunks 1 (length l) l = (fun x => [x]) <$> l.
Proof. induction l as [|x l IH]; simpl; [done|]. rewrite drop_0. by rewrite IH. Qed.

Lemma concat_length_uniform {A} (k : nat) (rows : list (list A)) :
  Forall (fun r => length r = k) rows ->
  length (concat rows) = (length rows * k)%nat.
Proof. induction 1 as [|r rows Hr _ IH]; simpl; [done|]. rewrite length_app. lia. Qed.

Lemma concat_singletons {A} (l : list A) : concat ((fun x => [x]) <$> l) = l.
Proof. induction l as [|x l IH]; simpl; [done|]. by f_equal. Qed.

(** ** Sums *)

Lemma rsum_app (l1 l2 : list R) : rsum (l1 ++ l2) = rsum l1 + rsum l2.
Proof. induction l1 as [|x l1 IH]; simpl; [lra|]. rewrite IH. lra. Qed.

Lemma rsum_concat (ls : list (list R)) : rsum (concat ls) = rsum (rsum <$> ls).
Proof. induction ls as [|l ls IH]; simpl; [done|]. by rewrite rsum_app, IH. Qed.

Lemma rsum_nonneg (l : list R) : Forall (fun x => 0 <= x) l -> 0 <= rsum l.
Proof. induction 1 as [|x l Hx _ IH]; simpl; lra. Qed.

Lemma rsum_ge_elem (l : list R) (i : nat) (x : R) :
  Forall (fun v => 0 <= v) l -> l !! i = Some x -> x <= rsum l.
Proof.
  intros Hl. revert i; induction Hl as [|v l Hv Hl IH]; intros [|i] Hi;
    simpl in *; try done.
  - injection Hi as ->. pose proof (rsum_nonneg l Hl). lra.
  - pose proof (IH i Hi). lra.
Qed.

Lemma rsum_le_total (l : list R) :
  Forall (fun v => 0 <= v) l -> Forall (fun v => v <= rsum l) l.
Proof.
  intros Hl. apply Forall_lookup. intros i x Hi. by apply (rsum_ge_elem l i).
Qed.

Lemma below_total (l : list R) (b : R) :
  Forall (fun v => 0 <= v) l -> rsum l < b -> Forall (fun v => v < b) l.
Proof.
  intros Hl Hb. eapply Forall_impl; [by apply rsum_le_total|].
  intros v Hv. cbv beta in Hv. lra.
Qed.

Lemma rsum_IZR (l : list Z) : rsum (IZR <$> l) = IZR (zsum l).
Proof. induction l as [|x l IH]; csimpl; [done|]. by rewrite IH, plus_IZR. Qed.

(** ** The error monad *)


(** ** Broadcasting of two tensors of one shape is element-wise *)

Lemma broadcast_rev_same (r : list nat) : broadcast_rev r r = Some r.
Proof.
  induction r as [|a r IH]; simpl; [done|].
  unfold broadcast_dim. rewrite decide_True by done. by rewrite IH.
Qed.

Lemma broadcast_shapes_same (s : list nat) : broadcast_shapes s s = Some s.
Proof.
  unfold broadcast_shapes. rewrite broadcast_rev_same. simpl.
  by rewrite reverse_involutive.
Qed.

Lemma pad_shape_same (s : list nat) : pad_shape (length s) s = s.
Proof. unfold pad_shape. by rewrite Nat.sub_diag. Qed.

Lemma fmap_fixed {A} (f : A -> A) (l : list A) :
  Forall (fun x => f x = x) l -> f <$> l = l.
Proof. induction 1 as [|x l Hx _ IH]; csimpl; [done|]. by rewrite Hx, IH. Qed.

Lemma expand_same {A} (s : list nat) (d : list A) :
  length d = numel s -> expand s s d = d.
Proof.
  revert d; induction s as [|a s IH]; intros d Hd; simpl; [done|].
  rewrite decide_True by done. simpl in Hd.
  rewrite fmap_fixed; [by apply concat_chunks|].
  eapply Forall_impl; [by apply chunks_Forall_length|].
  intros r Hr. by apply IH.
Qed.

Lemma broadcast2_same {A B C} (f : A -> B -> C) (s : list nat)
  (x : list A) (y : list B) :
  length x = numel s -> length y = numel s ->
  broadcast2 f (Tensor s x) (Tensor s y) = Ok (Tensor s (zip_with f x y)).
Proof.
  intros Hx Hy. unfold broadcast2. simpl.
  rewrite broadcast_shapes_same, pad_shape_same.
  by rewrite !expand_same.
Qed.

(** ** Float arithmetic *)

Lemma float_limit_pos : 0 < float_limit.
Proof. unfold float_limit. lra. Qed.

Lemma fin_in_range (r : R) : - float_limit < r < float_limit -> fin r = Finite r.
Proof. intros [Hlo Hhi]. unfold fin. by rewrite !decide_False by lra. Qed.

Lemma fin_nonneg (r : R) : 0 <= r -> r < float_limit -> fin r = Finite r.
Proof. intros Hr Hlim. apply fin_in_range. pose proof float_limit_pos. lra. Qed.

Lemma fin_overflow (r : R) : float_limit <= r -> fin r = PosInf.
Proof. intros Hr. unfold fin. by rewrite decide_True. Qed.

Lemma fin_zero : fin 0 = Finite 0.
Proof. apply fin_nonneg; [lra|apply float_limit_pos]. Qed.

Lemma xneg_fin (r : R) : xneg (fin r) = fin (- r).
Proof.
  pose proof float_limit_pos. unfold fin.
  repeat case_decide; simpl; try done; lra.
Qed.

Lemma fin_nonneg_x (r : R) : 0 <= r -> nonneg_x (fin r).
Proof.
  intros Hr. pose proof float_limit_pos. unfold fin.
  repeat case_decide; simpl; try done; lra.
Qed.

Lemma nonneg_x_zero : nonneg_x (Finite 0).
Proof. pose proof float_limit_pos. simpl. lra. Qed.

Lemma xadd_zero_r (a : xreal) : nonneg_x a -> xadd a (Finite 0) = a.
Proof.
  destruct a as [r| | |]; simpl; try done. intros Hr.
  rewrite Rplus_0_r. apply fin_nonneg; lra.
Qed.

(** The sum of two floats of real values that are not negative. *)
Lemma xadd_fin_nonneg (r s : R) :
  0 <= r -> 0 <= s -> xadd (fin r) (fin s) = fin (r + s).
Proof.
  intros Hr Hs. pose proof float_limit_pos. unfold fin.
  repeat case_decide; simpl; try done; try lra.
  - unfold fin. rewrite decide_True by lra. done.
  - unfold fin. rewrite decide_False by lra. by rewrite decide_False by lra.
Qed.


(** Dividing a float that is not negative by a positive number. *)
Lemma xquot_nonneg (a : xreal) (d : R) :
  nonneg_x a -> 0 < d -> nonneg_x (xquot a d).
Proof.
  intros Ha Hd. destruct a as [x| | |]; simpl in *; try done.
  - rewrite decide_False by lra. apply fin_nonneg_x.
    apply Rmult_le_pos; [lra|]. left. by apply Rinv_0_lt_compat.
  - by rewrite decide_False by lra.
Qed.

Lemma xquot_in_range (x d : R) :
  0 <= x -> x < float_limit -> 1 <= d -> xquot (Finite x) d = Finite (x / d).
Proof.
  intros Hx Hlim Hd. simpl. rewrite decide_False by lra.
  assert (0 < / d) as Hinv by (apply Rinv_0_lt_compat; lra).
  assert (/ d <= 1) as Hle.
  { rewrite <- Rinv_1. apply Rinv_le_contravar; lra. }
  apply fin_nonneg; unfold Rdiv; nra.
Qed.

(** ** Sums of floats that are not negative *)

Lemma xpart_nonneg (l : list xreal) :
  Forall nonneg_x l -> 0 <= rsum (xpart <$> l).
Proof.
  intros Hl. apply rsum_nonneg, Forall_fmap.
  eapply Forall_impl; [exact Hl|]. intros [r| | |]; simpl; lra.
Qed.

Lemma xsum_nonneg_cons (a : xreal) (l : list xreal) :
  nonneg_x a -> Forall nonneg_x l ->
  xadd a (xsum_nonneg l) = xsum_nonneg (a :: l).
Proof.
  intros Ha Hl. pose proof (xpart_nonneg l Hl) as Hs.
  pose proof float_limit_pos as Hlim.
  unfold xsum_nonneg.
  destruct (decide (NaN ∈ a :: l)) as [Hn'|Hn'],
    (decide (NaN ∈ l)) as [Hn|Hn].
  - by destruct a.
  - apply elem_of_cons in Hn' as [<-|?]; done.
  - exfalso. apply Hn'. by apply list_elem_of_further.
  - destruct (decide (PosInf ∈ a :: l)) as [Hp'|Hp'],
      (decide (PosInf ∈ l)) as [Hp|Hp].
    + destruct a; simpl in *; try done.
      exfalso. apply Hn'. apply list_elem_of_here.
    + apply elem_of_cons in Hp' as [<-|?]; [|done].
      unfold fin. repeat case_decide; simpl; try done; lra.
    + exfalso. apply Hp'. by apply list_elem_of_further.
    + destruct a as [r| | |]; simpl in Ha; try done.
      * csimpl. unfold fin at 1. repeat case_decide; simpl; try lra.
        -- unfold fin. by rewrite decide_True by lra.
        -- done.
      * exfalso. apply Hp'. apply list_elem_of_here.
      * exfalso. apply Hn'. apply list_elem_of_here.
Qed.

(** The sum of floats that are not negative does not depend on the order
    of the additions: a NaN wins, then an infinity, and the finite values
    add up to an infinity when their real sum leaves the float range. *)
Lemma xsum_nonneg_eq (l : list xreal) :
  Forall nonneg_x l -> xsum l = xsum_nonneg l.
Proof.
  induction 1 as [|a l Ha Hl IH].
  - unfold xsum, xsum_nonneg. simpl. by rewrite fin_zero.
  - change (xsum (a :: l)) with (xadd a (xsum l)).
    rewrite IH. by apply xsum_nonneg_cons.
Qed.


Lemma rsum_perm (l1 l2 : list R) : l1 ≡ₚ l2 -> rsum l1 = rsum l2.
Proof.
  induction 1 as [|x l1 l2 _ IH|x y l|l1 l2 l3 _ IH1 _ IH2]; simpl;
    [done|rewrite IH; done|lra|congruence].
Qed.

Lemma xsum_nonneg_perm (l1 l2 : list xreal) :
  l1 ≡ₚ l2 -> xsum_nonneg l1 = xsum_nonneg l2.
Proof.
  intros Hperm. unfold xsum_nonneg.
  rewrite (rsum_perm (xpart <$> l1) (xpart <$> l2)) by (by apply fmap_Permutation).
  destruct (decide (NaN ∈ l1)) as [H1|H1], (decide (NaN ∈ l2)) as [H2|H2];
    try done; try (by rewrite Hperm in H1); try (by rewrite <- Hperm in H2).
  destruct (decide (PosInf ∈ l1)) as [P1|P1], (decide (PosInf ∈ l2)) as [P2|P2];
    try done; try (by rewrite Hperm in P1); by rewrite <- Hperm in P2.
Qed.

Lemma xsum_perm (l1 l2 : list xreal) :
  Forall nonneg_x l1 -> l1 ≡ₚ l2 -> xsum l1 = xsum l2.
Proof.
  intros Hl Hperm. rewrite !xsum_nonneg_eq; [by apply xsum_nonneg_perm| |done].
  by rewrite <- Hperm.
Qed.

Lemma xadd_NaN_r (a : xreal) : xadd a NaN = NaN.
Proof. by destruct a. Qed.

Lemma xsum_NaN (l : list xreal) : NaN ∈ l -> xsum l = NaN.
Proof.
  unfold xsum. induction l as [|x l IH]; intros Hin;
    [by apply elem_of_nil in Hin|].
  apply elem_of_cons in Hin as [<-|Hin]; simpl; [done|].
  rewrite IH by done. apply xadd_NaN_r.
Qed.

(** A sum of finite values that are not negative is their real sum as long
    as that is in the float range. *)
Lemma xsum_Finite (l : list R) :
  Forall (fun x => 0 <= x) l -> rsum l < float_limit ->
  xsum (Finite <$> l) = Finite (rsum l).
Proof.
  intros Hl Hlim. rewrite xsum_nonneg_eq; cycle 1.
  { apply Forall_fmap. pose proof (rsum_le_total l Hl) as Hle.
    rewrite Forall_forall in Hl, Hle. apply Forall_forall. intros x Hx.
    specialize (Hl x Hx). specialize (Hle x Hx). simpl in *. lra. }
  unfold xsum_nonneg. rewrite !decide_False; cycle 1.
  { intros (x & ? & _)%list_elem_of_fmap. done. }
  { intros (x & ? & _)%list_elem_of_fmap. done. }
  rewrite <- list_fmap_compose.
  rewrite (fmap_fixed (xpart ∘ Finite)) by (by apply Forall_true).
  apply fin_nonneg; [by apply rsum_nonneg|done].
Qed.

(** ** The steps shared by [compute_loss] and [compute_ppl] *)

Lemma readouts_shaped_concat (B T C : nat) (rs : list (list (list R))) :
  readouts_shaped B T C rs ->
  length (concat rs) = (B * T)%nat /\ Forall (fun p => length p = C) (concat rs).
Proof.
  intros [<- Hall]. induction Hall as [|ex rs [Hex Hp] _ [IH1 IH2]]; simpl;
    [by split|].
  split.
  - rewrite length_app. lia.
  - apply Forall_app. by split.
Qed.

Lemma matrix_shaped_concat {A} (B T : nat) (rows : list (list A)) :
  matrix_shaped B T rows -> length (concat rows) = (B * T)%nat.
Proof. intros [<- Hall]. by apply concat_length_uniform. Qed.

Lemma readouts_shaped_rows (B T C : nat) (rs : list (list (list R))) :
  readouts_shaped B T C rs -> Forall (fun ex => length ex = T) rs.
Proof. intros [_ H]. eapply Forall_impl; [exact H|]. by intros ex [? _]. Qed.

Lemma view_rows_readouts (B T C : nat) (rs : list (list (list R))) :
  (0 < C)%nat ->
  view_rows (readouts_tensor B T C rs) C
  = Ok (Tensor [(B * T)%nat; C] (concat (concat rs))).
Proof.
  intros HC. unfold view_rows, readouts_tensor. cbn [shape data numel foldr].
  rewrite decide_False by lia.
  replace (B * (T * (C * 1)))%nat with (B * T * C)%nat by lia.
  rewrite Nat.Div0.mod_mul, Nat.div_mul by lia.
  by rewrite decide_True.
Qed.

Lemma view_rows_targets (B T : nat) (ts : list (list Z)) :
  view_rows (matrix_tensor B T ts) 1 = Ok (Tensor [(B * T)%nat; 1%nat] (concat ts)).
Proof.
  unfold view_rows, matrix_tensor. cbn [shape data numel foldr].
  rewrite decide_False by lia.
  rewrite Nat.mod_1_r, Nat.div_1_r. rewrite decide_True by done.
  by replace (B * (T * 1))%nat with (B * T)%nat by lia.
Qed.

Lemma log_softmax_row_length (x : list R) : length (log_softmax_row x) = length x.
Proof. unfold log_softmax_row. by rewrite length_fmap. Qed.

Lemma log_softmax_f32_length (x : list R) : length (log_softmax_f32 x) = length x.
Proof. unfold log_softmax_f32. by rewrite length_fmap, log_softmax_row_length. Qed.

Lemma log_softmax_positions (n C : nat) (ps : list (list R)) :
  length ps = n -> Forall (fun p => length p = C) ps ->
  log_softmax_dim1 (Tensor [n; C] (concat ps))
  = Ok (Tensor [n; C] (concat (log_softmax_f32 <$> ps))).
Proof.
  intros Hn HC. unfold log_softmax_dim1. simpl.
  by rewrite chunks_concat'.
Qed.

Lemma bind_Ok {A B} (a : A) (f : A -> result B) : (Ok a ≫= f) = f a.
Proof. done. Qed.

(** The gathered log-probability of a target that is a class index is the
    float of its real value. *)
Lemma pick_in_range (p : list R) (y : Z) :
  (0 <= y < Z.of_nat (length p))%Z ->
  pick (log_softmax_f32 p) y
  = Ok (fin (default 0 (log_softmax_row p !! Z.to_nat y))).
Proof.
  intros Hy. unfold pick, log_softmax_f32. rewrite decide_True by lia.
  rewrite list_lookup_fmap.
  destruct (log_softmax_row p !! Z.to_nat y) as [x|] eqn:Hx; [done|].
  apply lookup_ge_None in Hx. rewrite log_softmax_row_length in Hx. lia.
Qed.

Lemma gather_rows (C : nat) (ps : list (list R)) (ys : list Z) :
  length ps = length ys ->
  Forall (fun p => length p = C) ps ->
  Forall (fun y => 0 <= y < Z.of_nat C)%Z ys ->
  mapM (fun '(row, idx) => mapM (pick row) idx)
       (zip (log_softmax_f32 <$> ps) ((fun y => [y]) <$> ys))
  = Ok ((fun '(p, y) => [fin (default 0 (log_softmax_row p !! Z.to_nat y))])
          <$> zip ps ys).
Proof.
  revert ys; induction ps as [|p ps IH]; intros [|y ys] Hlen Hps Hys;
    try done.
  inversion Hps as [|? ? Hp Hps']; inversion Hys as [|? ? Hy Hys']; subst.
  csimpl. rewrite pick_in_range by lia.
  rewrite bind_Ok. csimpl. rewrite IH by (auto; simpl in Hlen; lia). done.
Qed.

Lemma concat_zip_singletons {A B C} (g : A -> B -> C) (xs : list A) (ys : list B) :
  concat ((fun '(x, y) => [g x y]) <$> zip xs ys) = zip_with g xs ys.
Proof.
  revert ys; induction xs as [|x xs IH]; intros [|y ys]; csimpl; try done.
  by rewrite IH.
Qed.

Lemma gather_positions (n C : nat) (ps : list (list R)) (ys : list Z) :
  length ps = n -> length ys = n ->
  Forall (fun p => length p = C) ps ->
  Forall (fun y => 0 <= y < Z.of_nat C)%Z ys ->
  gather_dim1 (Tensor [n; C] (concat (log_softmax_f32 <$> ps)))
              (Tensor [n; 1%nat] ys)
  = Ok (Tensor [n; 1%nat]
          (zip_with (fun p y => fin (default 0 (log_softmax_row p !! Z.to_nat y)))
                    ps ys)).
Proof.
  intros Hps Hys HC Hrange. unfold gather_dim1. cbn [shape data].
  rewrite decide_True by done.
  rewrite chunks_concat'; cycle 1.
  { by rewrite length_fmap. }
  { apply Forall_fmap. eapply Forall_impl; [exact HC|].
    intros p Hp. simpl. by rewrite log_softmax_f32_length. }
  rewrite <- Hys at 1. rewrite chunks_singletons.
  rewrite (gather_rows C) by (auto; lia).
  rewrite bind_Ok. by rewrite concat_zip_singletons.
Qed.

(** Negated, a gathered log-probability is the float of the loss of its
    position. *)
Lemma fmap_xneg_gathered (ps : list (list R)) (ys : list Z) :
  xneg <$> zip_with (fun p y => fin (default 0 (log_softmax_row p !! Z.to_nat y)))
                    ps ys
  = fin <$> zip_with spec_nll ps ys.
Proof.
  revert ys; induction ps as [|p ps IH]; intros [|y ys]; csimpl; try done.
  by rewrite IH, xneg_fin.
Qed.

Lemma zip_with_mult_mask (l : list R) (m : list bool) :
  zip_with xmul (fin <$> l) (Finite <$> (bool_to_R <$> m)) = zip_with masked l m.
Proof.
  revert m; induction l as [|x l IH]; intros [|b m]; csimpl; try done.
  by rewrite IH.
Qed.

Lemma spec_mask_length (len : Z) (T : nat) : length (spec_mask len T) = T.
Proof. unfold spec_mask. by rewrite length_fmap, length_seq. Qed.

(** The data of the masked loss matrix, example by example. *)
Lemma masked_data (B T C : nat) (rs : list (list (list R)))
  (ts : list (list Z)) (lens : list Z) :
  readouts_shaped B T C rs -> matrix_shaped B T ts -> length lens = B ->
  zip_with masked (zip_with spec_nll (concat rs) (concat ts))
           (concat ((fun len => spec_mask len T) <$> lens))
  = concat (masked_rows rs ts lens).
Proof.
  unfold masked_rows.
  revert B ts lens; induction rs as [|ex rs IH];
    intros B [|t ts] [|len lens] [Hrs Hall] [Hts Hrows] Hlens;
    simpl in *; try done; try lia.
  inversion Hall as [|? ? [Hex _] Hall']; inversion Hrows as [|? ? Ht Hrows']; subst.
  rewrite zip_with_app by lia.
  rewrite zip_with_app; cycle 1.
  { rewrite length_zip_with, spec_mask_length. lia. }
  f_equal.
  - unfold masked_losses. by rewrite Ht.
  - apply (IH (length rs)); [done|split; [lia|done]|lia].
Qed.

(** The masked loss matrix of a batch: one row per example. *)
Lemma masked_prefix {X} (K : tensor xreal -> result X) (B T C : nat)
  (rs : list (list (list R))) (ts : list (list Z)) (lens : list Z) :
  (0 < C)%nat ->
  readouts_shaped B T C rs -> matrix_shaped B T ts -> length lens = B ->
  targets_in_range C ts ->
  (readouts_flat ← view_rows (readouts_tensor B T C rs) C;
   log_probs_flat ← log_softmax_dim1 readouts_flat;
   target_flat ← view_rows (matrix_tensor B T ts) 1;
   gathered ← gather_dim1 log_probs_flat target_flat;
   let losses_flat := tmap xneg gathered in
   losses ← view_as losses_flat (shape (matrix_tensor B T ts));
   max_len ← size_at (matrix_tensor B T ts) 1;
   let mask := get_sequence_mask_from_length (vector_tensor lens) max_len in
   losses ← broadcast2 xmul losses (tmap Finite (tfloat_bool mask));
   K losses)
  = K (Tensor [B; T] (concat (masked_rows rs ts lens))).
Proof.
  intros HC Hrs Hts Hlens Hrange.
  destruct (readouts_shaped_concat _ _ _ _ Hrs) as [Hn Hp].
  pose proof (matrix_shaped_concat _ _ _ Hts) as Hm.
  rewrite view_rows_readouts, bind_Ok by done.
  rewrite log_softmax_positions, bind_Ok by done.
  rewrite view_rows_targets, bind_Ok.
  rewrite gather_positions, bind_Ok; try done; cycle 1.
  { unfold targets_in_range in Hrange. clear -Hrange.
    induction Hrange; simpl; [done|]. apply Forall_app. by split. }
  cbv zeta. unfold tmap at 2. cbn [shape data matrix_tensor].
  rewrite fmap_xneg_gathered.
  unfold view_as. cbn [shape data numel foldr].
  rewrite decide_True by lia. rewrite ?bind_Ok.
  change (size_at (matrix_tensor B T ts) 1) with (Ok (A:=nat) T). rewrite bind_Ok.
  unfold get_sequence_mask_from_length, tfloat_bool, tmap, vector_tensor.
  cbn [shape data]. rewrite Hlens.
  rewrite broadcast2_same, bind_Ok; cycle 1.
  { rewrite length_fmap, length_zip_with. cbn [numel foldr]. lia. }
  { rewrite !length_fmap. cbn [numel foldr].
    rewrite (concat_length_uniform T).
    - rewrite length_fmap. lia.
    - apply Forall_fmap, Forall_true. intros len. simpl.
      by rewrite length_fmap, length_seq. }
  f_equal. f_equal. rewrite zip_with_mult_mask. by apply (masked_data B T C).
Qed.

(** What [compute_loss] computes: the float sum of the masked loss matrix
    over the sum of the lengths. *)
Lemma compute_loss_flat (B T C : nat) (rs : list (list (list R)))
  (ts : list (list Z)) (lens : list Z) :
  (0 < C)%nat ->
  readouts_shaped B T C rs -> matrix_shaped B T ts -> length lens = B ->
  targets_in_range C ts ->
  compute_loss (readouts_tensor B T C rs) (matrix_tensor B T ts)
               (vector_tensor lens) C
  = Ok (xquot (xsum (concat (masked_rows rs ts lens))) (IZR (zsum lens))).
Proof.
  intros HC Hrs Hts Hlens Hrange. unfold compute_loss.
  rewrite (masked_prefix _ B T C rs ts lens) by done.
  unfold tsum_x, tsum, tfloat_int, tmap, vector_tensor. cbn [data].
  by rewrite rsum_IZR.
Qed.

(** ** The loss of a position *)

Lemma exp_le (x y : R) : x <= y -> exp x <= exp y.
Proof.
  intros [Hlt| ->]; [|lra]. left. by apply exp_increasing.
Qed.

Lemma ln_le (x y : R) : 0 < x -> x <= y -> ln x <= ln y.
Proof.
  intros Hx [Hlt| ->]; [|lra]. left. by apply ln_increasing.
Qed.

Lemma rsum_exp_nonneg (l : list R) : 0 <= rsum (exp <$> l).
Proof.
  apply rsum_nonneg, Forall_fmap, Forall_true. intros x. simpl.
  left. apply exp_pos.
Qed.

Lemma exp_le_rsum (x : R) (l : list R) : x ∈ l -> exp x <= rsum (exp <$> l).
Proof.
  induction 1 as [x l|x y l _ IH]; csimpl.
  - pose proof (rsum_exp_nonneg l). lra.
  - pose proof (exp_pos y). lra.
Qed.

(** A log-probability is never positive. *)
Lemma log_softmax_row_nonpos (p : list R) (i : nat) (v : R) :
  log_softmax_row p !! i = Some v -> v <= 0.
Proof.
  unfold log_softmax_row. rewrite list_lookup_fmap.
  destruct (p !! i) as [x|] eqn:Hx; simpl; [|done].
  intros [= <-]. apply list_elem_of_lookup_2 in Hx.
  pose proof (exp_le_rsum x p Hx) as Hle.
  pose proof (ln_le _ _ (exp_pos x) Hle) as Hln.
  rewrite ln_exp in Hln. lra.
Qed.

Lemma spec_nll_nonneg (p : list R) (y : Z) : 0 <= spec_nll p y.
Proof.
  unfold spec_nll.
  destruct (log_softmax_row p !! Z.to_nat y) as [v|] eqn:Hv; simpl; [|lra].
  apply log_softmax_row_nonpos in Hv. lra.
Qed.

Lemma spec_masked_losses_nonneg (ps : list (list R)) (ys : list Z) (len : Z) :
  Forall (fun x => 0 <= x) (spec_masked_losses ps ys len).
Proof.
  unfold spec_masked_losses.
  generalize (spec_mask len (length ys)).
  revert ys; induction ps as [|p ps IH]; intros [|y ys] [|b m]; simpl;
    try constructor.
  - destruct b; [apply spec_nll_nonneg|lra].
  - apply IH.
Qed.

Lemma spec_example_loss_nonneg (ex : list (list R) * list Z) (len : Z) :
  0 <= spec_example_loss ex len.
Proof. apply rsum_nonneg, spec_masked_losses_nonneg. Qed.

Lemma masked_in_range (r : R) (valid : bool) :
  0 <= r -> r < float_limit -> masked r valid = Finite (if valid then r else 0).
Proof.
  intros Hr Hlim. unfold masked. rewrite fin_nonneg by done. simpl.
  destruct valid; simpl.
  - rewrite Rmult_1_r. by apply fin_nonneg.
  - rewrite Rmult_0_r. apply fin_zero.
Qed.

(** At a valid position the product with the mask keeps the loss, infinite
    or not. *)
Lemma masked_valid (r : R) : 0 <= r -> masked r true = fin r.
Proof.
  intros Hr. unfold masked. destruct (decide (float_limit <= r)) as [Hbig|Hbig].
  - rewrite fin_overflow by done. simpl. unfold signed_inf.
    rewrite decide_False by lra. by rewrite bool_decide_eq_true_2 by lra.
  - rewrite fin_nonneg by lra. simpl. rewrite Rmult_1_r. apply fin_nonneg; lra.
Qed.

(** At a padding position an infinite loss is not zeroed: [inf * 0] is
    NaN. *)
Lemma masked_overflow_invalid (r : R) :
  float_limit <= r -> masked r false = NaN.
Proof.
  intros Hr. unfold masked. rewrite fin_overflow by done. simpl.
  unfold signed_inf. by rewrite decide_True.
Qed.




Lemma masked_losses_length (T : nat) (ps : list (list R)) (ys : list Z)
  (len : Z) :
  length ps = T -> length ys = T -> length (masked_losses ps ys len) = T.
Proof.
  intros Hp Hy. unfold masked_losses.
  rewrite !length_zip_with, spec_mask_length. lia.
Qed.

Lemma spec_masked_losses_length (T : nat) (ps : list (list R)) (ys : list Z)
  (len : Z) :
  length ps = T -> length ys = T -> length (spec_masked_losses ps ys len) = T.
Proof.
  intros Hp Hy. unfold spec_masked_losses.
  rewrite !length_zip_with, spec_mask_length. lia.
Qed.

Lemma spec_mask_lookup (len : Z) (T i : nat) :
  (i < T)%nat -> spec_mask len T !! i = Some (bool_decide (Z.of_nat i < len)%Z).
Proof.
  intros Hi. unfold spec_mask. rewrite list_lookup_fmap.
  by rewrite lookup_seq_lt.
Qed.

(** The row of an example whose padding losses are in the float range and
    whose summed loss is too: the code's floats are the reference values. *)
Lemma masked_losses_in_range (ps : list (list R)) (ys : list Z) (len : Z) :
  length ps = length ys ->
  (forall t p y, (len <= Z.of_nat t)%Z -> ps !! t = Some p -> ys !! t = Some y ->
                 spec_nll p y < float_limit) ->
  spec_example_loss (ps, ys) len < float_limit ->
  masked_losses ps ys len = Finite <$> spec_masked_losses ps ys len.
Proof.
  intros Hlen Hpad Hsum. apply list_eq. intros i.
  pose proof (spec_masked_losses_nonneg ps ys len) as Hnn.
  pose proof (rsum_ge_elem (spec_masked_losses ps ys len) i) as Hge.
  unfold spec_example_loss in Hsum. simpl in Hsum.
  revert Hge. unfold masked_losses, spec_masked_losses.
  rewrite list_lookup_fmap, !lookup_zip_with.
  destruct (ps !! i) as [p|] eqn:Hp; simpl; [|done].
  destruct (ys !! i) as [y|] eqn:Hy; simpl; [|done].
  assert (i < length ys)%nat as Hi by (by eapply lookup_lt_Some).
  rewrite spec_mask_lookup by done. simpl. intros Hge.
  f_equal. apply masked_in_range; [apply spec_nll_nonneg|].
  case_bool_decide as Hv.
  - specialize (Hge _ Hnn eq_refl). unfold spec_masked_losses in Hsum. lra.
  - apply (Hpad i p y); [lia|done|done].
Qed.

Lemma rsum_masked_rows (exs : list (list (list R) * list Z)) (lens : list Z) :
  rsum <$> zip_with (fun ex len => spec_masked_losses ex.1 ex.2 len) exs lens
  = zip_with spec_example_loss exs lens.
Proof.
  revert lens; induction exs as [|ex exs IH]; intros [|len lens]; csimpl;
    try done.
  by rewrite IH.
Qed.

Lemma example_losses_nonneg (exs : list (list (list R) * list Z))
  (lens : list Z) :
  Forall (fun v => 0 <= v) (zip_with spec_example_loss exs lens).
Proof.
  revert lens; induction exs as [|ex exs IH];
    intros [|len lens]; simpl; constructor; [|apply IH].
  apply spec_example_loss_nonneg.
Qed.

(** The head and the tail of a batch whose padding losses are in range. *)
Lemma padding_in_range_cons (ex : list (list R)) (rs : list (list (list R)))
  (t : list Z) (ts : list (list Z)) (len : Z) (lens : list Z) :
  padding_in_range (ex :: rs) (t :: ts) (len :: lens) ->
  (forall i p y, (len <= Z.of_nat i)%Z -> ex !! i = Some p -> t !! i = Some y ->
                 spec_nll p y < float_limit) /\
  padding_in_range rs ts lens.
Proof.
  intros Hpad. split.
  - intros i p y Hi Hp Hy. by apply (Hpad 0%nat i len p y).
  - intros b i l p y Hl Hi Hp Hy. by apply (Hpad (S b) i l p y).
Qed.

(** The masked loss matrix of a batch whose padding losses and whose
    per-example sums are in the float range. *)
Lemma masked_rows_in_range (rs : list (list (list R))) (ts : list (list Z))
  (lens : list Z) :
  Forall2 (fun ex t => length ex = length t) rs ts ->
  padding_in_range rs ts lens ->
  Forall (fun s => s < float_limit) (zip_with spec_example_loss (zip rs ts) lens) ->
  masked_rows rs ts lens
  = (fun row : list R => Finite <$> row)
      <$> zip_with (fun ex len => spec_masked_losses ex.1 ex.2 len)
                   (zip rs ts) lens.
Proof.
  unfold masked_rows. intros Hshape. revert lens.
  induction Hshape as [|ex t rs ts Hex _ IH]; intros [|len lens] Hpad Hsum;
    simpl in *; try done.
  apply padding_in_range_cons in Hpad as [Hhd Htl].
  inversion Hsum as [|? ? Hs Hsum']; subst.
  rewrite IH by done. f_equal. by apply masked_losses_in_range.
Qed.

Lemma shaped_rows_match (B T C : nat) (rs : list (list (list R)))
  (ts : list (list Z)) :
  readouts_shaped B T C rs -> matrix_shaped B T ts ->
  Forall2 (fun ex t => length ex = length t) rs ts.
Proof.
  intros Hrs [Hts Hrows]. pose proof (readouts_shaped_rows _ _ _ _ Hrs) as Hex.
  destruct Hrs as [Hrs _]. subst B. revert ts Hts Hrows.
  induction Hex as [|ex rs He _ IH]; intros [|t ts] Hts Hrows; simpl in *;
    try done; try constructor.
  - inversion Hrows; subst. lia.
  - inversion Hrows; subst. apply IH; [lia|done].
Qed.

Lemma fmap_concat_rows {A B} (f : A -> B) (xs : list (list A)) :
  concat ((fun x : list A => f <$> x) <$> xs) = f <$> concat xs.
Proof.
  induction xs as [|x xs IH]; csimpl; [done|]. by rewrite fmap_app, IH.
Qed.

Lemma xquot_xdiv (x : R) (z : Z) :
  0 <= x -> x < float_limit -> xquot (Finite x) (IZR z) = xdiv x (IZR z).
Proof.
  intros Hx Hlim. unfold xquot, xdiv.
  destruct (decide (IZR z = 0)) as [Hz|Hz]; [done|].
  apply fin_in_range.
  assert (z <> 0)%Z as Hz' by (intros ->; done).
  assert (1 <= IZR z \/ IZR z <= -1) as [Hd|Hd].
  { destruct (Z_lt_le_dec z 0) as [Hneg|Hpos].
    - right. apply (IZR_le z (-1)). lia.
    - left. apply (IZR_le 1 z). lia. }
  - assert (0 < / IZR z) as Hinv by (apply Rinv_0_lt_compat; lra).
    assert (/ IZR z <= 1) as Hle.
    { rewrite <- Rinv_1. apply Rinv_le_contravar; lra. }
    unfold Rdiv. pose proof float_limit_pos. split; nra.
  - assert (0 < / - IZR z) as Hinv by (apply Rinv_0_lt_compat; lra).
    assert (/ - IZR z <= 1) as Hle.
    { rewrite <- Rinv_1. apply Rinv_le_contravar; lra. }
    rewrite Rinv_opp in Hinv, Hle.
    unfold Rdiv. pose proof float_limit_pos. split; nra.
Qed.

(** The float sum of a masked loss matrix whose entries are the reference
    values. *)
Lemma rsum_masked_total (exs : list (list (list R) * list Z)) (lens : list Z) :
  rsum (zip_with spec_example_loss exs lens) < float_limit ->
  xsum (Finite <$> concat (zip_with (fun ex len => spec_masked_losses ex.1 ex.2 len)
                                    exs lens))
  = Finite (rsum (zip_with spec_example_loss exs lens)).
Proof.
  intros Hsum. rewrite xsum_Finite; cycle 1.
  { apply Forall_concat. clear.
    revert lens; induction exs as [|ex exs IH]; intros [|len lens]; simpl;
      constructor; [apply spec_masked_losses_nonneg|apply IH]. }
  { by rewrite rsum_concat, rsum_masked_rows. }
  by rewrite rsum_concat, rsum_masked_rows.
Qed.

(** When the padding losses and the summed masked loss are in the float
    range, [compute_loss] returns the reference value. *)
Lemma compute_loss_in_range (B T C : nat) (rs : list (list (list R)))
  (ts : list (list Z)) (lens : list Z) :
  (0 < C)%nat ->
  readouts_shaped B T C rs -> matrix_shaped B T ts -> length lens = B ->
  targets_in_range C ts ->
  padding_in_range rs ts lens ->
  rsum (zip_with spec_example_loss (zip rs ts) lens) < float_limit ->
  compute_loss (readouts_tensor B T C rs) (matrix_tensor B T ts)
               (vector_tensor lens) C
  = Ok (spec_masked_nll rs ts lens).
Proof.
  intros HC Hrs Hts Hlens Hrange Hpad Hsum.
  rewrite (compute_loss_flat B T C) by done.
  pose proof (example_losses_nonneg (zip rs ts) lens) as Hnn.
  rewrite masked_rows_in_range; try done; cycle 1.
  { by apply (shaped_rows_match B T C). }
  { by apply below_total. }
  rewrite fmap_concat_rows, rsum_masked_total by done.
  unfold spec_masked_nll. rewrite rsum_IZR. f_equal.
  apply xquot_xdiv; [by apply rsum_nonneg|done].
Qed.

(** ** Batches of small scores are in the float range *)

Lemma rsum_lower (a : R) (l : list R) :
  Forall (fun v => a <= v) l -> INR (length l) * a <= rsum l.
Proof.
  induction 1 as [|v l Hv _ IH]; [simpl; lra|].
  cbn [length rsum foldr]. rewrite S_INR. fold (rsum l). lra.
Qed.

Lemma rsum_upper (b : R) (l : list R) :
  Forall (fun v => v <= b) l -> rsum l <= INR (length l) * b.
Proof.
  induction 1 as [|v l Hv _ IH]; [simpl; lra|].
  cbn [length rsum foldr]. rewrite S_INR. fold (rsum l). lra.
Qed.

Lemma ln_le_self (x : R) : 0 < x -> ln x <= x.
Proof.
  intros Hx. rewrite <- (ln_exp x) at 2. apply ln_le; [done|].
  pose proof (exp_ineq1_le x). lra.
Qed.

(** The loss of a position whose scores lie between [lo] and [hi]. *)
Lemma spec_nll_upper (lo hi : R) (p : list R) (y : Z) :
  lo <= hi -> Forall (fun x => lo <= x <= hi) p ->
  spec_nll p y <= hi - lo + INR (length p).
Proof.
  intros Hlh Hp. pose proof (pos_INR (length p)) as Hn.
  unfold spec_nll, log_softmax_row. rewrite list_lookup_fmap.
  destruct (p !! Z.to_nat y) as [x|] eqn:Hx; simpl; [|lra].
  assert (0 < INR (length p)) as Hpos.
  { apply lt_0_INR. apply lookup_lt_Some in Hx. lia. }
  assert (lo <= x) as Hlo.
  { rewrite Forall_forall in Hp. apply list_elem_of_lookup_2 in Hx.
    by apply Hp. }
  assert (rsum (exp <$> p) <= INR (length p) * exp hi) as Hsum.
  { rewrite <- (length_fmap exp p). apply rsum_upper, Forall_fmap.
    eapply Forall_impl; [exact Hp|]. intros v [_ Hv]. simpl. by apply exp_le. }
  assert (0 < rsum (exp <$> p)) as Hs.
  { apply list_elem_of_lookup_2 in Hx. pose proof (exp_le_rsum x p Hx).
    pose proof (exp_pos x). lra. }
  pose proof (ln_le _ _ Hs Hsum) as Hln.
  rewrite ln_mult, ln_exp in Hln by (done || apply exp_pos).
  pose proof (ln_le_self _ Hpos). lra.
Qed.

Lemma spec_example_loss_upper (M : R) (ps : list (list R)) (ys : list Z)
  (len : Z) :
  0 <= M -> Forall (fun p => forall y, spec_nll p y <= M) ps ->
  spec_example_loss (ps, ys) len <= INR (length ps) * M.
Proof.
  intros HM Hps. unfold spec_example_loss, spec_masked_losses. simpl.
  generalize (spec_mask len (length ys)).
  revert ys; induction Hps as [|p ps Hp _ IH]; intros ys m.
  { simpl. lra. }
  pose proof (pos_INR (length ps)) as Hn.
  destruct ys as [|y ys], m as [|b m];
    cbn [zip_with rsum foldr length]; rewrite ?S_INR; try nra.
  specialize (IH ys m). specialize (Hp y). unfold rsum in IH.
  destruct b; nra.
Qed.

Lemma example_losses_upper (M : R) (exs : list (list (list R) * list Z))
  (lens : list Z) :
  0 <= M -> Forall (fun ex => forall len, spec_example_loss ex len <= M) exs ->
  rsum (zip_with spec_example_loss exs lens) <= INR (length exs) * M.
Proof.
  intros HM Hexs. revert lens; induction Hexs as [|ex exs Hex _ IH];
    intros lens.
  { simpl. lra. }
  pose proof (pos_INR (length exs)) as Hn.
  destruct lens as [|len lens];
    cbn [zip_with rsum foldr length]; rewrite ?S_INR; try nra.
  specialize (IH lens). specialize (Hex len). unfold rsum in IH. nra.
Qed.


(** A batch whose scores lie between [lo] and [hi], and whose number of
    positions is not astronomical, has all its losses and their sum in
    the float range. *)
Lemma bounded_scores_in_range (B T C : nat) (lo hi : R)
  (rs : list (list (list R))) (ts : list (list Z)) (lens : list Z) :
  readouts_shaped B T C rs -> matrix_shaped B T ts ->
  lo <= hi ->
  Forall (Forall (Forall (fun x => lo <= x <= hi))) rs ->
  INR (B * T) * (hi - lo + INR C) < float_limit ->
  padding_in_range rs ts lens /\
  rsum (zip_with spec_example_loss (zip rs ts) lens) < float_limit.
Proof.
  intros [HB Hshape] Hts Hlh Hbnd Hlim.
  set (M := hi - lo + INR C) in *.
  assert (0 <= M) as HM by (pose proof (pos_INR C); unfold M; lra).
  assert (Forall (Forall (fun p => forall y, spec_nll p y <= M)) rs) as Hnll.
  { rewrite Forall_forall in Hshape, Hbnd. apply Forall_forall. intros ex Hex.
    destruct (Hshape ex Hex) as [_ HC]. specialize (Hbnd ex Hex).
    rewrite Forall_forall in HC, Hbnd. apply Forall_forall. intros p Hp y.
    unfold M. rewrite <- (HC p Hp). apply spec_nll_upper; [done|by apply Hbnd]. }
  split.
  - intros b t len p y _ _ Hp _.
    destruct (rs !! b) as [ex|] eqn:Hex; simpl in Hp; [|done].
    assert (spec_nll p y <= M) as Hle.
    { rewrite Forall_forall in Hnll. apply list_elem_of_lookup_2 in Hex, Hp.
      specialize (Hnll ex Hex). rewrite Forall_forall in Hnll. by apply Hnll. }
    assert (1 <= INR (B * T)) as Hone.
    { apply (le_INR 1). apply lookup_lt_Some in Hp.
      rewrite Forall_forall in Hshape. apply lookup_lt_Some in Hex as Hb.
      apply list_elem_of_lookup_2 in Hex.
      destruct (Hshape ex Hex) as [HT _]. nia. }
    nra.
  - eapply Rle_lt_trans; [|exact Hlim].
    rewrite mult_INR, Rmult_assoc.
    assert (length (zip rs ts) <= B)%nat as Hz by (rewrite length_zip; lia).
    apply le_INR in Hz.
    etrans; [apply (example_losses_upper (INR T * M))|].
    + pose proof (pos_INR T). nra.
    + apply Forall_forall. intros [ps ys] Hin len.
      apply elem_of_zip_l in Hin. simpl in Hin.
      rewrite Forall_forall in Hshape, Hnll.
      destruct (Hshape ps Hin) as [<- _].
      apply spec_example_loss_upper; [done|by apply Hnll].
    + apply Rmult_le_compat_r; [|done].
      apply Rmult_le_pos; [apply pos_INR|done].
Qed.

(** ** A padding position whose loss overflows *)

Lemma nll_even : spec_nll [0; 0] 0 = ln 2.
Proof.
  unfold spec_nll, log_softmax_row. simpl. rewrite exp_0.
  replace (1 + (1 + 0)) with 2 by lra. lra.
Qed.

(** The loss of the class that is scored [a - b] below the other one. *)
Lemma spec_nll_gap (a b : R) : a - b <= spec_nll [a; b] 1.
Proof.
  unfold spec_nll, log_softmax_row. simpl.
  assert (a <= ln (exp a + (exp b + 0))) as Hln.
  { rewrite <- (ln_exp a) at 1. apply ln_le; [apply exp_pos|].
    pose proof (exp_pos b). lra. }
  lra.
Qed.

Lemma pow_2_127 : 2 ^ 127 = 170141183460469231731687303715884105728.
Proof. rewrite pow_IZR. f_equal. Qed.

Lemma two_127_spread : float_limit <= 2 ^ 127 - - 2 ^ 127.
Proof. rewrite pow_2_127. unfold float_limit. lra. Qed.

Lemma one_example_shaped (T C : nat) (ex : list (list R)) (tgts : list Z) :
  length ex = T -> Forall (fun p => length p = C) ex -> length tgts = T ->
  readouts_shaped 1 T C [ex] /\ matrix_shaped 1 T [tgts].
Proof. intros H1 H2 H3. repeat split; by repeat constructor. Qed.

(** One example of true length 1 and padded width 2: a valid position with
    equal scores, and a padding position whose target is scored the whole
    float range below the other class.  Its loss is infinite, the mask
    entry is 0, the product is NaN and so is the loss of the batch. *)
Lemma compute_loss_padding_overflow (a b : R) :
  float_limit <= a - b ->
  compute_loss (readouts_tensor 1 2 2 [[[0; 0]; [a; b]]])
               (matrix_tensor 1 2 [[0; 1]]%Z) (vector_tensor [1]%Z) 2
  = Ok NaN.
Proof.
  intros Hgap.
  destruct (one_example_shaped 2 2 [[0; 0]; [a; b]] [0; 1]%Z) as [Hrs Hts];
    [done|by repeat constructor|done|].
  rewrite (compute_loss_flat 1 2 2); [|lia|done|done|done|repeat constructor; lia].
  change (concat (masked_rows [[[0; 0]; [a; b]]] [[0; 1]%Z] [1%Z]))
    with [masked (spec_nll [0; 0] 0) true; masked (spec_nll [a; b] 1) false].
  rewrite (masked_overflow_invalid (spec_nll [a; b] 1)).
  - unfold xsum. cbn [foldr]. by rewrite xadd_NaN_r.
  - pose proof (spec_nll_gap a b). lra.
Qed.

(** The same example with a harmless padding position. *)
Lemma compute_loss_padding_zero :
  compute_loss (readouts_tensor 1 2 2 [[[0; 0]; [0; 0]]])
               (matrix_tensor 1 2 [[0; 0]]%Z) (vector_tensor [1]%Z) 2
  = Ok (Finite (ln 2)).
Proof.
  destruct (one_example_shaped 2 2 [[0; 0]; [0; 0]] [0; 0]%Z) as [Hrs Hts];
    [done|by repeat constructor|done|].
  destruct (bounded_scores_in_range 1 2 2 0 0 [[[0; 0]; [0; 0]]] [[0; 0]%Z] [1%Z])
    as [Hpad Hsum]; [done|done|lra|repeat constructor; lra| |].
  { simpl. unfold float_limit. lra. }
  rewrite (compute_loss_in_range 1 2 2);
    [|lia|done|done|done|repeat constructor; lia|done|done].
  change (spec_masked_nll [[[0; 0]; [0; 0]]] [[0; 0]%Z] [1%Z])
    with (xdiv (spec_nll [0; 0] 0 + (0 + 0) + 0) (1 + 0)).
  rewrite nll_even. unfold xdiv. rewrite decide_False by lra.
  do 2 f_equal. lra.
Qed.

Lemma reference_ignores_padding (a b : R) :
  spec_masked_nll [[[0; 0]; [a; b]]] [[0; 1]]%Z [1]%Z = Finite (ln 2).
Proof.
  change (spec_masked_nll [[[0; 0]; [a; b]]] [[0; 1]%Z] [1%Z])
    with (xdiv (spec_nll [0; 0] 0 + (0 + 0) + 0) (1 + 0)).
  rewrite nll_even. unfold xdiv. rewrite decide_False by lra.
  f_equal. lra.
Qed.

(** ** C1: [compute_loss] is the masked negative log-likelihood *)

(** C1 as stated fails: on the batch whose padding position has the scores
    [2^127] and [-2^127] the reference value, which zeroes the padding
    position, is [ln 2], and [compute_loss] returns NaN. *)
Lemma compute_loss_masked_nll_counterexample :
  compute_loss (readouts_tensor 1 2 2 [[[0; 0]; [2 ^ 127; - 2 ^ 127]]])
               (matrix_tensor 1 2 [[0; 1]]%Z) (vector_tensor [1]%Z) 2
  = Ok NaN /\
  spec_masked_nll [[[0; 0]; [2 ^ 127; - 2 ^ 127]]] [[0; 1]]%Z [1]%Z
  = Finite (ln 2) /\
  compute_loss (readouts_tensor 1 2 2 [[[0; 0]; [2 ^ 127; - 2 ^ 127]]])
               (matrix_tensor 1 2 [[0; 1]]%Z) (vector_tensor [1]%Z) 2
  <> Ok (spec_masked_nll [[[0; 0]; [2 ^ 127; - 2 ^ 127]]] [[0; 1]]%Z [1]%Z).
Proof.
  pose proof (compute_loss_padding_overflow _ _ two_127_spread) as Hcode.
  pose proof (reference_ignores_padding (2 ^ 127) (- 2 ^ 127)) as Href.
  split; [done|]. split; [done|]. rewrite Hcode, Href. discriminate.
Qed.



(** ** C2: the padded region and [compute_loss] *)



(** C2 as stated fails: the two batches agree before the true length 1,
    and differ at the padding position only; [compute_loss] returns [ln 2]
    on the first and NaN on the second. *)
Lemma compute_loss_padding_invariant_counterexample :
  agree_before_length [[[0; 0]; [0; 0]]] [[[0; 0]; [2 ^ 127; - 2 ^ 127]]]
                      [[0; 0]]%Z [[0; 1]]%Z [1]%Z /\
  compute_loss (readouts_tensor 1 2 2 [[[0; 0]; [0; 0]]])
               (matrix_tensor 1 2 [[0; 0]]%Z) (vector_tensor [1]%Z) 2
  = Ok (Finite (ln 2)) /\
  compute_loss (readouts_tensor 1 2 2 [[[0; 0]; [2 ^ 127; - 2 ^ 127]]])
               (matrix_tensor 1 2 [[0; 1]]%Z) (vector_tensor [1]%Z) 2
  = Ok NaN.
Proof.
  split; [|split].
  - intros b t len Hb Ht. destruct b as [|b]; simpl in Hb; [|discriminate].
    injection Hb as <-. destruct t as [|t]; [split; reflexivity|lia].
  - apply compute_loss_padding_zero.
  - apply compute_loss_padding_overflow, two_127_spread.
Qed.



(** ** The float sums of the masked losses *)


(** The float sum of the losses of positions of which those outside the
    mask have a loss in the float range: the float of the real sum over
    the mask. *)
Lemma xsum_masked (l : list R) (m : list bool) :
  Forall2 (fun r (valid : bool) => 0 <= r /\ (valid = false -> r < float_limit))
          l m ->
  xsum (zip_with masked l m)
  = fin (rsum (zip_with (fun x (valid : bool) => if valid then x else 0) l m)).
Proof.
  induction 1 as [|r b l m [Hr Hb] Hall IH]; simpl.
  - by rewrite fin_zero.
  - change (foldr xadd (Finite 0) (zip_with masked l m))
      with (xsum (zip_with masked l m)).
    rewrite IH.
    assert (0 <= rsum (zip_with (fun x (valid : bool) => if valid then x else 0)
                                l m)) as Hs.
    { apply rsum_nonneg. clear -Hall.
      induction Hall as [|r b l m [Hr _] _ IH]; simpl; constructor; [|done].
      destruct b; lra. }
    destruct b.
    + rewrite masked_valid by done. by apply xadd_fin_nonneg.
    + rewrite masked_in_range by auto. rewrite <- fin_zero.
      by apply xadd_fin_nonneg.
Qed.

(** The float sum of the row of an example whose padding losses are in the
    float range. *)
Lemma example_total (ps : list (list R)) (ys : list Z) (len : Z) :
  length ps = length ys ->
  (forall t p y, (len <= Z.of_nat t)%Z -> ps !! t = Some p -> ys !! t = Some y ->
                 spec_nll p y < float_limit) ->
  xsum (masked_losses ps ys len) = fin (spec_example_loss (ps, ys) len).
Proof.
  intros Hlen Hpad. unfold masked_losses, spec_example_loss, spec_masked_losses.
  cbn [fst snd].
  apply xsum_masked. apply Forall2_same_length_lookup. split.
  - rewrite length_zip_with, spec_mask_length. lia.
  - intros i r b Hr Hb. apply lookup_zip_with_Some in Hr as (p & y & -> & Hp & Hy).
    split; [apply spec_nll_nonneg|]. intros ->.
    assert (i < length ys)%nat as Hi by (by eapply lookup_lt_Some).
    rewrite spec_mask_lookup in Hb by done. injection Hb as Hb.
    apply bool_decide_eq_false in Hb. apply (Hpad i); [lia|done|done].
Qed.



(** ** The steps of [compute_ppl] *)

Lemma xvsum_singletons (l : list xreal) :
  xvsum 1 ((fun x => [x]) <$> l) = [xsum l].
Proof.
  unfold xvsum. change (replicate 1 (Finite 0)) with [Finite 0].
  induction l as [|x l IH]; csimpl; [done|]. by rewrite IH.
Qed.

(** Row sums of a matrix given by its rows. *)
Lemma sum_dim1_rows (B T : nat) (rows : list (list xreal)) :
  length rows = B -> Forall (fun r => length r = T) rows ->
  sum_dim1 (Tensor [B; T] (concat rows)) = Ok (Tensor [B] (xsum <$> rows)).
Proof.
  intros HB HT. unfold sum_dim1. cbn [shape data numel foldr].
  rewrite Nat.mul_1_r, chunks_concat' by done.
  do 2 f_equal.
  rewrite <- (concat_singletons (xsum <$> rows)), <- list_fmap_compose.
  f_equal. apply Forall_fmap_ext_1.
  eapply Forall_impl; [exact HT|]. intros r Hr. simpl.
  rewrite <- Hr, chunks_singletons. apply xvsum_singletons.
Qed.

Lemma masked_rows_shaped (B T C : nat) (rs : list (list (list R)))
  (ts : list (list Z)) (lens : list Z) :
  readouts_shaped B T C rs -> matrix_shaped B T ts -> length lens = B ->
  length (masked_rows rs ts lens) = B /\
  Forall (fun r => length r = T) (masked_rows rs ts lens).
Proof.
  unfold masked_rows.
  intros Hrs Hts Hlens. pose proof (readouts_shaped_rows _ _ _ _ Hrs) as Hex.
  destruct Hrs as [Hrs _], Hts as [Hts Hrows]. split.
  - rewrite length_zip_with, length_zip. lia.
  - clear Hrs Hts Hlens. revert ts lens Hrows.
    induction Hex as [|ex rs He _ IH]; intros [|t ts] [|len lens] Hrows;
      simpl; try done.
    inversion Hrows; subst. constructor; [|by apply IH].
    by apply masked_losses_length.
Qed.

Lemma clamp_exp_rows (n : nat) (exs : list (list (list R) * list Z))
  (lens : list Z) :
  length exs = n -> length lens = n ->
  xexp <$> zip_with xmin
             (zip_with xquot
                (xsum <$> zip_with (fun ex len => masked_losses ex.1 ex.2 len)
                                   exs lens)
                (IZR <$> lens))
             (Rmult 100 <$> replicate n 1)
  = zip_with example_ppl exs lens.
Proof.
  revert exs lens; induction n as [|n IH]; intros [|ex exs] [|len lens] He Hl;
    simpl in *; try done.
  csimpl. rewrite IH by lia. done.
Qed.

(** What [compute_ppl] averages: one float per example. *)
Lemma per_example_ppl_general (B T C : nat) (rs : list (list (list R)))
  (ts : list (list Z)) (lens : list Z) :
  (0 < C)%nat ->
  readouts_shaped B T C rs -> matrix_shaped B T ts -> length lens = B ->
  targets_in_range C ts ->
  per_example_ppl C (readouts_tensor B T C rs) (matrix_tensor B T ts)
                  (vector_tensor lens)
  = Ok (Tensor [B] (zip_with example_ppl (zip rs ts) lens)).
Proof.
  intros HC Hrs Hts Hlens Hrange. unfold per_example_ppl. cbv zeta.
  etrans; [apply (masked_prefix _ B T C rs ts lens); done|].
  destruct (masked_rows_shaped B T C rs ts lens) as [HB HT]; try done.
  rewrite sum_dim1_rows, bind_Ok by done.
  assert (length (zip rs ts) = B) as Hz.
  { destruct Hrs as [? _], Hts as [? _]. rewrite length_zip. lia. }
  unfold tfloat_int, tmap, vector_tensor. cbn [shape data]. rewrite Hlens.
  rewrite broadcast2_same, bind_Ok; cycle 1.
  { rewrite length_fmap. cbn [numel foldr]. lia. }
  { rewrite length_fmap. cbn [numel foldr]. lia. }
  unfold ones. cbn [shape data].
  rewrite broadcast2_same, bind_Ok; cycle 1.
  { rewrite !length_zip_with, !length_fmap. cbn [numel foldr]. lia. }
  { rewrite length_fmap, length_replicate. done. }
  cbn [shape data numel foldr]. rewrite Nat.mul_1_r.
  unfold masked_rows. by rewrite clamp_exp_rows.
Qed.

Lemma compute_ppl_flat (B T C : nat) (rs : list (list (list R)))
  (ts : list (list Z)) (lens : list Z) :
  (0 < C)%nat ->
  readouts_shaped B T C rs -> matrix_shaped B T ts -> length lens = B ->
  targets_in_range C ts ->
  compute_ppl C (readouts_tensor B T C rs) (matrix_tensor B T ts)
              (vector_tensor lens)
  = Ok (tmean (Tensor [B] (zip_with example_ppl (zip rs ts) lens))).
Proof.
  intros HC Hrs Hts Hlens Hrange. unfold compute_ppl.
  by rewrite (per_example_ppl_general B T C).
Qed.

(** ** The exponential of the ceiling *)

Lemma square_lower (a b e : R) : 0 <= a -> a <= e -> b <= a * a -> b <= e * e.
Proof. intros Ha He Hb. nra. Qed.

Lemma exp_double (x : R) : exp (2 * x) = exp x * exp x.
Proof. replace (2 * x) with (x + x) by lra. apply exp_plus. Qed.

(** In float32 the exponential of the ceiling 100 is an infinity: [exp 100]
    is above [2.7e41], the float range ends below [3.5e38]. *)
Lemma exp_100_overflows : float_limit <= exp 100.
Proof.
  assert (281 / 256 <= exp (25 / 256)) as H0.
  { pose proof (exp_ineq1_le (25 / 256)). lra. }
  assert (1204849 / 1000000 <= exp (25 / 128)) as H1.
  { replace (25 / 128) with (2 * (25 / 256)) by lra. rewrite exp_double.
    apply (square_lower (281 / 256)); [lra|done|lra]. }
  assert (1451661 / 1000000 <= exp (25 / 64)) as H2.
  { replace (25 / 64) with (2 * (25 / 128)) by lra. rewrite exp_double.
    apply (square_lower (1204849 / 1000000)); [lra|done|lra]. }
  assert (2107319 / 1000000 <= exp (25 / 32)) as H3.
  { replace (25 / 32) with (2 * (25 / 64)) by lra. rewrite exp_double.
    apply (square_lower (1451661 / 1000000)); [lra|done|lra]. }
  assert (4440793 / 1000000 <= exp (25 / 16)) as H4.
  { replace (25 / 16) with (2 * (25 / 32)) by lra. rewrite exp_double.
    apply (square_lower (2107319 / 1000000)); [lra|done|lra]. }
  assert (9860321 / 500000 <= exp (25 / 8)) as H5.
  { replace (25 / 8) with (2 * (25 / 16)) by lra. rewrite exp_double.
    apply (square_lower (4440793 / 1000000)); [lra|done|lra]. }
  assert (9722593 / 25000 <= exp (25 / 4)) as H6.
  { replace (25 / 4) with (2 * (25 / 8)) by lra. rewrite exp_double.
    apply (square_lower (9860321 / 500000)); [lra|done|lra]. }
  assert (151246103429 / 1000000 <= exp (25 / 2)) as H7.
  { replace (25 / 2) with (2 * (25 / 4)) by lra. rewrite exp_double.
    apply (square_lower (9722593 / 25000)); [lra|done|lra]. }
  assert (22875380000 <= exp (25)) as H8.
  { replace (25) with (2 * (25 / 2)) by lra. rewrite exp_double.
    apply (square_lower (151246103429 / 1000000)); [lra|done|lra]. }
  assert (523283000000000000000 <= exp (50)) as H9.
  { replace (50) with (2 * (25)) by lra. rewrite exp_double.
    apply (square_lower 22875380000); [lra|done|lra]. }
  assert (273825000000000000000000000000000000000000 <= exp (100)) as H10.
  { replace (100) with (2 * (50)) by lra. rewrite exp_double.
    apply (square_lower 523283000000000000000); [lra|done|lra]. }
  unfold float_limit. lra.
Qed.

Lemma below_ceiling (x : R) : exp x < 101 -> Rmin x 100 = x.
Proof.
  intros Hx. apply Rmin_left. left. apply exp_lt_inv.
  pose proof (exp_ineq1_le 100). lra.
Qed.

(** ** The perplexity of one example *)




(** An example of positive length whose padding losses and whose summed
    loss are in the float range: the float of the reference perplexity. *)
Lemma example_ppl_fin (ps : list (list R)) (ys : list Z) (len : Z) :
  length ps = length ys -> (0 < len)%Z ->
  (forall t p y, (len <= Z.of_nat t)%Z -> ps !! t = Some p -> ys !! t = Some y ->
                 spec_nll p y < float_limit) ->
  spec_example_loss (ps, ys) len < float_limit ->
  example_ppl (ps, ys) len = fin (spec_example_ppl (ps, ys) len).
Proof.
  intros Hlen Hpos Hpad Hsum. unfold example_ppl, spec_example_ppl.
  cbn [fst snd]. rewrite example_total by done.
  pose proof (spec_example_loss_nonneg (ps, ys) len) as Hnn.
  rewrite fin_nonneg by done.
  rewrite xquot_in_range; [|done|done|apply (IZR_le 1); lia].
  simpl. by rewrite Rmult_1_r.
Qed.



(** A per-example perplexity is never negative. *)
Lemma example_ppl_nonneg (ex : list (list R) * list Z) (len : Z) :
  nonneg_x (example_ppl ex len).
Proof.
  unfold example_ppl.
  destruct (xmin _ _) as [r| | |]; simpl; try done.
  - apply fin_nonneg_x. left. apply exp_pos.
  - apply nonneg_x_zero.
Qed.

Lemma example_ppls_nonneg (exs : list (list (list R) * list Z)) (lens : list Z) :
  Forall nonneg_x (zip_with example_ppl exs lens).
Proof.
  revert lens; induction exs as [|ex exs IH]; intros [|len lens]; simpl;
    constructor; [apply example_ppl_nonneg|apply IH].
Qed.

(** ** The mean of the per-example perplexities *)

Lemma tmean_Finite (s : list nat) (l : list R) :
  Forall (fun x => 0 <= x) l -> rsum l < float_limit ->
  tmean (Tensor s (Finite <$> l)) = xdiv (rsum l) (INR (length l)).
Proof.
  intros Hl Hlim. unfold tmean. cbn [data].
  rewrite xsum_Finite, length_fmap, INR_IZR_INZ by done.
  apply xquot_xdiv; [by apply rsum_nonneg|done].
Qed.

Lemma example_ppls_in_range (rs : list (list (list R))) (ts : list (list Z))
  (lens : list Z) :
  Forall2 (fun ex t => length ex = length t) rs ts ->
  Forall (fun len => 0 < len)%Z lens ->
  padding_in_range rs ts lens ->
  Forall (fun s => s < float_limit) (zip_with spec_example_loss (zip rs ts) lens) ->
  Forall (fun v => v < float_limit) (zip_with spec_example_ppl (zip rs ts) lens) ->
  zip_with example_ppl (zip rs ts) lens
  = Finite <$> zip_with spec_example_ppl (zip rs ts) lens.
Proof.
  intros Hshape. revert lens.
  induction Hshape as [|ex t rs ts Hex _ IH]; intros [|len lens] Hpos Hpad Hs Hv;
    simpl in *; try done.
  apply padding_in_range_cons in Hpad as [Hhd Htl].
  inversion Hpos; inversion Hs; inversion Hv; subst.
  csimpl. rewrite IH by done. f_equal.
  rewrite example_ppl_fin by done. apply fin_nonneg; [|done].
  left. apply exp_pos.
Qed.

Lemma example_ppls_pos (exs : list (list (list R) * list Z)) (lens : list Z) :
  Forall (fun v => 0 <= v) (zip_with spec_example_ppl exs lens).
Proof.
  revert lens; induction exs as [|ex exs IH]; intros [|len lens]; simpl;
    constructor; [left; apply exp_pos|apply IH].
Qed.

(** When no float overflows, [compute_ppl] returns the reference value. *)
Lemma compute_ppl_in_range (B T C : nat) (rs : list (list (list R)))
  (ts : list (list Z)) (lens : list Z) :
  (0 < C)%nat ->
  readouts_shaped B T C rs -> matrix_shaped B T ts -> length lens = B ->
  targets_in_range C ts ->
  Forall (fun len => 0 < len)%Z lens ->
  padding_in_range rs ts lens ->
  Forall (fun s => s < float_limit) (zip_with spec_example_loss (zip rs ts) lens) ->
  rsum (zip_with spec_example_ppl (zip rs ts) lens) < float_limit ->
  compute_ppl C (readouts_tensor B T C rs) (matrix_tensor B T ts)
              (vector_tensor lens)
  = Ok (spec_ppl rs ts lens).
Proof.
  intros HC Hrs Hts Hlens Hrange Hpos Hpad Hsums Hppl.
  rewrite (compute_ppl_flat B T C) by done. f_equal.
  rewrite example_ppls_in_range; try done.
  - apply tmean_Finite; [apply example_ppls_pos|done].
  - by apply (shaped_rows_match B T C).
  - apply below_total; [apply example_ppls_pos|done].
Qed.

(** ** C3: [compute_ppl] and the mean of the clamped per-example perplexities *)

Lemma nll_hopeless : 100 <= spec_nll [0; 200] 0.
Proof.
  unfold spec_nll, log_softmax_row. simpl.
  assert (200 <= ln (exp 0 + (exp 200 + 0))) as Hln.
  { rewrite <- (ln_exp 200) at 1. apply ln_le; [apply exp_pos|].
    pose proof (exp_pos 0). lra. }
  lra.
Qed.

Lemma nll_hopeless_in_range : spec_nll [0; 200] 0 < float_limit.
Proof.
  eapply Rle_lt_trans; [apply (spec_nll_upper 0 200); [lra|]|].
  - repeat constructor; lra.
  - simpl. unfold float_limit. lra.
Qed.

(** One example of one position whose target is scored 200 below the
    other class: the mean loss is above 100, the clamp brings it to 100,
    and the float32 exponential of 100 is an infinity. *)
Lemma example_ppl_hopeless : example_ppl ([[0; 200]], [0%Z]) 1 = PosInf.
Proof.
  pose proof nll_hopeless as Hlow. pose proof nll_hopeless_in_range as Hup.
  rewrite example_ppl_fin; [|done|lia| |]; cycle 1.
  { intros [|t] p y Ht Hp Hy; [lia|done]. }
  { change (spec_example_loss ([[0; 200]], [0%Z]) 1)
      with (spec_nll [0; 200] 0 + 0). lra. }
  unfold spec_example_ppl.
  change (spec_example_loss ([[0; 200]], [0%Z]) 1)
    with (spec_nll [0; 200] 0 + 0).
  rewrite Rmin_right by lra. apply fin_overflow, exp_100_overflows.
Qed.

Lemma hopeless_shaped :
  readouts_shaped 1 1 2 [[[0; 200]]] /\ matrix_shaped 1 1 [[0]]%Z.
Proof. apply one_example_shaped; [done|by repeat constructor|done]. Qed.

Lemma compute_ppl_exp_overflow :
  compute_ppl 2 (readouts_tensor 1 1 2 [[[0; 200]]]) (matrix_tensor 1 1 [[0]]%Z)
              (vector_tensor [1]%Z)
  = Ok PosInf.
Proof.
  destruct hopeless_shaped as [Hrs Hts].
  rewrite (compute_ppl_flat 1 1 2); [|lia|done|done|done|repeat constructor; lia].
  f_equal. unfold tmean. cbn [data zip zip_with length].
  rewrite example_ppl_hopeless. simpl. by rewrite decide_False by lra.
Qed.

Lemma reference_ppl_saturated :
  spec_ppl [[[0; 200]]] [[0]]%Z [1]%Z = Finite (exp 100).
Proof.
  pose proof nll_hopeless as Hlow.
  change (spec_ppl [[[0; 200]]] [[0%Z]] [1%Z])
    with (xdiv (exp (Rmin ((spec_nll [0; 200] 0 + 0) / 1) 100) + 0) (INR 1)).
  rewrite Rmin_right by lra. unfold xdiv. simpl INR.
  rewrite decide_False by lra. f_equal. lra.
Qed.

(** The batch with a padding position of infinite loss: the row sum is
    NaN, and the clamp, the exponential and the mean keep it. *)
Lemma example_ppl_padding_overflow (a b : R) :
  float_limit <= a - b ->
  example_ppl ([[0; 0]; [a; b]], [0; 1]%Z) 1 = NaN.
Proof.
  intros Hgap. unfold example_ppl.
  change (masked_losses ([[0; 0]; [a; b]], [0%Z; 1%Z]).1
                        ([[0; 0]; [a; b]], [0%Z; 1%Z]).2 1)
    with [masked (spec_nll [0; 0] 0) true; masked (spec_nll [a; b] 1) false].
  rewrite (masked_overflow_invalid (spec_nll [a; b] 1)).
  - unfold xsum. cbn [foldr]. by rewrite xadd_NaN_r.
  - pose proof (spec_nll_gap a b). lra.
Qed.

Lemma compute_ppl_padding_overflow (a b : R) :
  float_limit <= a - b ->
  compute_ppl 2 (readouts_tensor 1 2 2 [[[0; 0]; [a; b]]])
              (matrix_tensor 1 2 [[0; 1]]%Z) (vector_tensor [1]%Z)
  = Ok NaN.
Proof.
  intros Hgap.
  destruct (one_example_shaped 2 2 [[0; 0]; [a; b]] [0; 1]%Z) as [Hrs Hts];
    [done|by repeat constructor|done|].
  rewrite (compute_ppl_flat 1 2 2); [|lia|done|done|done|repeat constructor; lia].
  f_equal. unfold tmean. cbn [data zip zip_with length].
  by rewrite example_ppl_padding_overflow.
Qed.

Lemma reference_ppl_ignores_padding (a b : R) :
  spec_ppl [[[0; 0]; [a; b]]] [[0; 1]]%Z [1]%Z = Finite 2.
Proof.
  change (spec_ppl [[[0; 0]; [a; b]]] [[0%Z; 1%Z]] [1%Z])
    with (xdiv (exp (Rmin ((spec_nll [0; 0] 0 + (0 + 0)) / 1) 100) + 0) (INR 1)).
  rewrite nll_even.
  assert (exp (ln 2) = 2) as E2 by (apply exp_ln; lra).
  replace ((ln 2 + (0 + 0)) / 1) with (ln 2) by lra.
  rewrite below_ceiling by lra. rewrite E2.
  unfold xdiv. simpl INR. rewrite decide_False by lra. f_equal. lra.
Qed.

(** C3 as stated fails in two ways.  A mean loss above 88.73: on the batch
    of one position whose target is scored 200 below, the reference value
    is [exp 100] and [compute_ppl] returns an infinity.  A padding
    position of infinite loss: the reference value is 2 and [compute_ppl]
    returns NaN. *)
Lemma compute_ppl_mean_clamped_ppl_counterexample :
  (compute_ppl 2 (readouts_tensor 1 1 2 [[[0; 200]]]) (matrix_tensor 1 1 [[0]]%Z)
               (vector_tensor [1]%Z)
   = Ok PosInf /\
   spec_ppl [[[0; 200]]] [[0]]%Z [1]%Z = Finite (exp 100)) /\
  (compute_ppl 2 (readouts_tensor 1 2 2 [[[0; 0]; [2 ^ 127; - 2 ^ 127]]])
               (matrix_tensor 1 2 [[0; 1]]%Z) (vector_tensor [1]%Z)
   = Ok NaN /\
   spec_ppl [[[0; 0]; [2 ^ 127; - 2 ^ 127]]] [[0; 1]]%Z [1]%Z = Finite 2).
Proof.
  split; split.
  - apply compute_ppl_exp_overflow.
  - apply reference_ppl_saturated.
  - apply compute_ppl_padding_overflow, two_127_spread.
  - apply reference_ppl_ignores_padding.
Qed.


(** ** The mask and the valid positions of an example *)

Lemma spec_mask_nonpos (len : Z) (T : nat) :
  (len <= 0)%Z -> spec_mask len T = replicate T false.
Proof.
  intros Hlen. apply list_eq. intros i.
  destruct (decide (i < T)%nat) as [Hi|Hi].
  - rewrite spec_mask_lookup, lookup_replicate_2 by done.
    f_equal. apply bool_decide_eq_false. lia.
  - rewrite !lookup_ge_None_2; [done| |].
    + rewrite length_replicate. lia.
    + rewrite spec_mask_length. lia.
Qed.

Lemma spec_mask_clip (len : Z) (T : nat) :
  spec_mask (Z.min len (Z.of_nat T)) T = spec_mask len T.
Proof.
  apply list_eq. intros i.
  destruct (decide (i < T)%nat) as [Hi|Hi].
  - rewrite !spec_mask_lookup by done. f_equal. apply bool_decide_ext. lia.
  - rewrite !lookup_ge_None_2; [done| |]; rewrite spec_mask_length; lia.
Qed.

Lemma spec_mask_split (len : Z) (T : nat) :
  (0 <= len <= Z.of_nat T)%Z ->
  spec_mask len T
  = replicate (Z.to_nat len) true ++ replicate (T - Z.to_nat len) false.
Proof.
  intros Hlen. apply list_eq. intros i.
  destruct (decide (i < T)%nat) as [Hi|Hi].
  - rewrite spec_mask_lookup by done.
    destruct (decide (i < Z.to_nat len)%nat) as [Hv|Hv].
    + rewrite lookup_app_l by (rewrite length_replicate; lia).
      rewrite lookup_replicate_2 by done. f_equal.
      apply bool_decide_eq_true. lia.
    + rewrite lookup_app_r by (rewrite length_replicate; lia).
      rewrite length_replicate, lookup_replicate_2 by lia. f_equal.
      apply bool_decide_eq_false. lia.
  - rewrite !lookup_ge_None_2; [done| |].
    + rewrite length_app, !length_replicate. lia.
    + rewrite spec_mask_length. lia.
Qed.

Lemma masked_all_invalid (l : list R) (n : nat) :
  rsum (zip_with (fun x (valid : bool) => if valid then x else 0) l
                 (replicate n false)) = 0.
Proof.
  revert l; induction n as [|n IH]; intros [|x l]; simpl; try done.
  rewrite IH. lra.
Qed.

Lemma masked_prefix_valid (l : list R) (n m : nat) :
  rsum (zip_with (fun x (valid : bool) => if valid then x else 0) l
                 (replicate n true ++ replicate m false))
  = rsum (take n l).
Proof.
  revert l; induction n as [|n IH]; intros l; simpl.
  - rewrite masked_all_invalid. by destruct l.
  - destruct l as [|x l]; simpl; [done|]. by rewrite IH.
Qed.

(** An example of non-positive length contributes nothing. *)
Lemma spec_example_loss_no_valid (ex : list (list R) * list Z) (len : Z) :
  (len <= 0)%Z -> spec_example_loss ex len = 0.
Proof.
  intros Hlen. unfold spec_example_loss, spec_masked_losses.
  rewrite spec_mask_nonpos by done. apply masked_all_invalid.
Qed.

(** An example whose length fits contributes its first [len] positions. *)
Lemma spec_example_loss_valid (ps : list (list R)) (ys : list Z) (len : Z) :
  (0 <= len <= Z.of_nat (length ys))%Z ->
  spec_example_loss (ps, ys) len
  = rsum (take (Z.to_nat len) (zip_with spec_nll ps ys)).
Proof.
  intros Hlen. unfold spec_example_loss, spec_masked_losses. simpl.
  rewrite spec_mask_split by done. apply masked_prefix_valid.
Qed.

Lemma zip_with_Forall2 {A B D} (Q : D -> Prop) (f : A -> B -> D)
  (l : list A) (k : list B) :
  Forall2 (fun x y => Q (f x y)) l k -> Forall Q (zip_with f l k).
Proof. induction 1; simpl; by constructor. Qed.

Lemma INR_to_nat (z : Z) : (0 <= z)%Z -> INR (Z.to_nat z) = IZR z.
Proof. intros Hz. rewrite INR_IZR_INZ. f_equal. lia. Qed.

(** The summed loss of an example whose length fits, from a bound on the
    losses of its positions. *)
Lemma example_loss_lower (a : R) (ps : list (list R)) (ys : list Z) (len : Z) :
  (0 <= len <= Z.of_nat (length ys))%Z -> length ps = length ys ->
  Forall2 (fun p y => a <= spec_nll p y) ps ys ->
  IZR len * a <= spec_example_loss (ps, ys) len.
Proof.
  intros Hlen Hps Hall. rewrite spec_example_loss_valid by done.
  rewrite <- INR_to_nat by lia.
  replace (Z.to_nat len)
    with (length (take (Z.to_nat len) (zip_with spec_nll ps ys))) at 1.
  - apply rsum_lower, Forall_take. by apply (zip_with_Forall2 (fun v => a <= v)).
  - rewrite length_take, length_zip_with. lia.
Qed.


(** ** The perplexities of a batch of small scores *)






(** ** C4: the bounds of a per-example perplexity *)


(** C4 as stated fails in two ways.  On the example whose target is scored
    200 below, the per-example perplexity is an infinity, above [exp 100].
    On the example with a padding position of infinite loss it is NaN. *)
Lemma per_example_ppl_bounds_counterexample :
  per_example_ppl 2 (readouts_tensor 1 1 2 [[[0; 200]]])
                  (matrix_tensor 1 1 [[0]]%Z) (vector_tensor [1]%Z)
  = Ok (Tensor [1%nat] [PosInf]) /\
  per_example_ppl 2 (readouts_tensor 1 2 2 [[[0; 0]; [2 ^ 127; - 2 ^ 127]]])
                  (matrix_tensor 1 2 [[0; 1]]%Z) (vector_tensor [1]%Z)
  = Ok (Tensor [1%nat] [NaN]).
Proof.
  split.
  - destruct hopeless_shaped as [Hrs Hts].
    rewrite (per_example_ppl_general 1 1 2);
      [|lia|done|done|done|repeat constructor; lia].
    cbn [zip zip_with]. by rewrite example_ppl_hopeless.
  - destruct (one_example_shaped 2 2 [[0; 0]; [2 ^ 127; - 2 ^ 127]] [0; 1]%Z)
      as [Hrs Hts]; [done|by repeat constructor|done|].
    rewrite (per_example_ppl_general 1 2 2);
      [|lia|done|done|done|repeat constructor; lia].
    cbn [zip zip_with].
    by rewrite (example_ppl_padding_overflow _ _ two_127_spread).
Qed.



(** ** C5: [compute_ph_attn_loss] is the masked mean binary cross-entropy *)

Lemma clamped_log_interior (x : R) : exp (-100) <= x -> clamped_log x = ln x.
Proof.
  intros Hx. pose proof (exp_pos (-100)) as Hpos. unfold clamped_log.
  rewrite decide_False by lra. apply Rmax_left.
  rewrite <- (ln_exp (-100)). apply ln_le; lra.
Qed.

(** Away from the two ends of the unit interval the clamp is idle and [bce]
    is the usual cross-entropy. *)
Lemma bce_textbook (p y : R) :
  exp (-100) <= p -> p <= 1 - exp (-100) ->
  bce p y = - (y * ln p + (1 - y) * ln (1 - p)).
Proof.
  intros Hlo Hhi. unfold bce.
  rewrite !clamped_log_interior by lra. done.
Qed.

(** A probability equal to its indicator costs nothing. *)
Lemma bce_exact (y : Z) : (y = 0 \/ y = 1)%Z -> bce (IZR y) (IZR y) = 0.
Proof.
  intros [-> | ->]; unfold bce, clamped_log.
  - rewrite decide_True by lra. rewrite decide_False by lra.
    replace (1 - 0) with 1 by lra. rewrite ln_1, Rmax_left by lra. lra.
  - rewrite decide_False by lra. rewrite decide_True by lra.
    rewrite ln_1, Rmax_left by lra. lra.
Qed.

Lemma masked_bce_data (ys : list Z) (ps : list R) (ms : list Z) :
  Forall (fun m => m = 0 \/ m = 1)%Z ms ->
  zip_with Rmult (zip_with bce ps (IZR <$> ys)) (IZR <$> ms)
  = zip_with (fun '(y, p) m => spec_masked_bce y p m) (zip ys ps) ms.
Proof.
  intros Hms. revert ys ps; induction Hms as [|m ms Hm _ IH];
    intros [|y ys] [|p ps]; csimpl; try done.
  rewrite IH. f_equal. unfold spec_masked_bce.
  destruct Hm as [-> | ->]; simpl; lra.
Qed.

Lemma compute_ph_attn_loss_flat (s : list nat) (ys : list Z) (ps : list R)
  (ms : list Z) :
  length ys = numel s -> length ps = numel s -> length ms = numel s ->
  Forall (fun p => 0 <= p /\ p <= 1) ps ->
  compute_ph_attn_loss (Tensor s ys) (Tensor s ps) (Tensor s ms)
  = Ok (xdiv (rsum (zip_with Rmult (zip_with bce ps (IZR <$> ys)) (IZR <$> ms)))
             (IZR (zsum ms))).
Proof.
  intros Hy Hp Hm Hps. unfold compute_ph_attn_loss, binary_cross_entropy.
  unfold tfloat_int, tmap. cbn [shape data].
  rewrite decide_True by done. rewrite decide_True by done.
  rewrite bind_Ok. cbn [shape data].
  rewrite broadcast2_same, bind_Ok; [done| |].
  - rewrite length_zip_with, length_fmap. lia.
  - by rewrite length_fmap.
Qed.

(** C5.  For indicator targets, attention probabilities in [0, 1] and a 0-1
    mask, all of one shape, [compute_ph_attn_loss] returns the reference
    value: the element-wise binary cross-entropy of the probabilities
    against the indicators, zero at the pairs whose mask is 0, summed and
    divided by the sum of the mask. *)
Theorem compute_ph_attn_loss_masked_bce (s : list nat) (ys : list Z)
  (ps : list R) (ms : list Z) :
  length ys = numel s -> length ps = numel s -> length ms = numel s ->
  Forall (fun y => y = 0 \/ y = 1)%Z ys ->
  Forall (fun p => 0 <= p /\ p <= 1) ps ->
  Forall (fun m => m = 0 \/ m = 1)%Z ms ->
  compute_ph_attn_loss (Tensor s ys) (Tensor s ps) (Tensor s ms)
  = Ok (spec_ph_attn_loss ys ps ms).
Proof.
  intros Hy Hp Hm _ Hps Hms.
  rewrite compute_ph_attn_loss_flat by done.
  unfold spec_ph_attn_loss. by rewrite masked_bce_data.
Qed.

Lemma compute_ph_attn_loss_masked_bce_witness :
  compute_ph_attn_loss (Tensor [2; 2]%nat [1; 0; 0; 1]%Z)
                       (Tensor [2; 2]%nat [1; 0; 1; 0])
                       (Tensor [2; 2]%nat [1; 1; 0; 1]%Z)
  = Ok (spec_ph_attn_loss [1; 0; 0; 1]%Z [1; 0; 1; 0] [1; 1; 0; 1]%Z).
Proof.
  apply compute_ph_attn_loss_masked_bce.
  - reflexivity.
  - reflexivity.
  - reflexivity.
  - repeat constructor; lia.
  - repeat constructor; lra.
  - repeat constructor; lia.
Defined.

(** ** C7: the normalising denominators *)

Lemma xdiv_finite (x y : R) : y <> 0 -> xdiv x y = Finite (x / y).
Proof. intros Hy. unfold xdiv. by rewrite decide_False. Qed.



(** C7 as stated fails for [compute_loss]: on the batch with a padding
    position of infinite loss the sum of the true lengths is 1, the
    denominator is not zero, and the value returned is NaN. *)
Lemma denominators_nonzero_under_precondition_counterexample :
  (0 < tsum_int (vector_tensor [1]%Z))%Z /\
  tsum (tfloat_int (vector_tensor [1]%Z)) <> 0 /\
  compute_loss (readouts_tensor 1 2 2 [[[0; 0]; [2 ^ 127; - 2 ^ 127]]])
               (matrix_tensor 1 2 [[0; 1]]%Z) (vector_tensor [1]%Z) 2
  = Ok NaN /\
  ~ is_finite NaN.
Proof.
  split; [reflexivity|]. split; [|split].
  - unfold tsum, tfloat_int, tmap, vector_tensor. simpl. lra.
  - apply compute_loss_padding_overflow, two_127_spread.
  - intros [r Hr]. discriminate.
Qed.



(** ** C8: the uniform scenario *)

Lemma uniform5_length (p : list R) : uniform5 p -> length p = 5%nat.
Proof.
  intros Hp. rewrite <- log_softmax_row_length, Hp. by rewrite length_replicate.
Qed.

Lemma uniform5_nll (p : list R) (y : Z) :
  uniform5 p -> (0 <= y < 5)%Z -> spec_nll p y = ln 5.
Proof.
  intros Hp Hy. unfold spec_nll. rewrite Hp.
  assert (Z.to_nat y < 5)%nat as Hlt by lia.
  rewrite lookup_replicate_2 by done. simpl. lra.
Qed.

(** A batch all of whose losses are in the float range. *)
Lemma padding_in_range_all (rs : list (list (list R))) (ts : list (list Z))
  (lens : list Z) :
  Forall2 (Forall2 (fun p y => spec_nll p y < float_limit)) rs ts ->
  padding_in_range rs ts lens.
Proof.
  intros Hall b t len p y _ _ Hp Hy.
  destruct (rs !! b) as [ex|] eqn:Hex; simpl in Hp; [|done].
  destruct (ts !! b) as [tg|] eqn:Htg; simpl in Hy; [|done].
  pose proof (Forall2_lookup_lr _ _ _ _ _ _ Hall Hex Htg) as Hrow.
  apply (Forall2_lookup_lr _ _ _ _ _ _ Hrow Hp Hy).
Qed.

Lemma ln_5_bounds : 0 < ln 5 <= 5.
Proof.
  split.
  - rewrite <- ln_1. apply ln_increasing; lra.
  - apply ln_le_self. lra.
Qed.

(** C8.  Two examples of true lengths 3 and 1, five classes, targets
    [[1,2,3],[4,pad,pad]] and readouts whose log-softmax is uniform: every
    valid position has loss [ln 5], the padding positions have loss 0, and
    [compute_loss] returns exactly [ln 5]. *)
Theorem compute_loss_uniform_scenario (p11 p12 p13 p21 p22 p23 : list R)
  (pad : Z) :
  Forall uniform5 [p11; p12; p13; p21; p22; p23] ->
  (0 <= pad < 5)%Z ->
  spec_masked_losses [p11; p12; p13] [1; 2; 3]%Z 3 = [ln 5; ln 5; ln 5] /\
  spec_masked_losses [p21; p22; p23] [4; pad; pad]%Z 1 = [ln 5; 0; 0] /\
  compute_loss (readouts_tensor 2 3 5 [[p11; p12; p13]; [p21; p22; p23]])
               (matrix_tensor 2 3 [[1; 2; 3]; [4; pad; pad]]%Z)
               (vector_tensor [3; 1]%Z) 5
  = Ok (Finite (ln 5)).
Proof.
  intros Hu Hpad.
  repeat (match goal with H : Forall _ (_ :: _) |- _ =>
            apply Forall_cons_1 in H; destruct H as [? H] end).
  assert (spec_masked_losses [p11; p12; p13] [1; 2; 3]%Z 3 = [ln 5; ln 5; ln 5])
    as E1.
  { unfold spec_masked_losses. simpl.
    by rewrite !uniform5_nll by (done || lia). }
  assert (spec_masked_losses [p21; p22; p23] [4; pad; pad]%Z 1 = [ln 5; 0; 0])
    as E2.
  { unfold spec_masked_losses. simpl.
    by rewrite !uniform5_nll by (done || lia). }
  split; [done|]. split; [done|].
  pose proof ln_5_bounds as Hln.
  assert (rsum (zip_with spec_example_loss
                  (zip [[p11; p12; p13]; [p21; p22; p23]]
                       [[1; 2; 3]; [4; pad; pad]]%Z) [3; 1]%Z)
          = ln 5 + (ln 5 + (ln 5 + 0)) + (ln 5 + (0 + (0 + 0)) + 0)) as Etotal.
  { change (rsum (zip_with spec_example_loss
                    (zip [[p11; p12; p13]; [p21; p22; p23]]
                         [[1; 2; 3]; [4; pad; pad]]%Z) [3; 1]%Z))
      with (rsum (spec_masked_losses [p11; p12; p13] [1; 2; 3]%Z 3)
            + (rsum (spec_masked_losses [p21; p22; p23] [4; pad; pad]%Z 1) + 0)).
    by rewrite E1, E2. }
  rewrite (compute_loss_in_range 2 3 5); cycle 1.
  - lia.
  - split; [done|]. repeat constructor; by apply uniform5_length.
  - split; [done|]. by repeat constructor.
  - done.
  - repeat constructor; lia.
  - apply padding_in_range_all.
    repeat constructor; rewrite uniform5_nll by (done || lia);
      unfold float_limit; lra.
  - rewrite Etotal. unfold float_limit. lra.
  - f_equal. unfold spec_masked_nll. rewrite Etotal.
    unfold rsum. cbn [foldr fmap list_fmap].
    rewrite xdiv_finite by lra. f_equal. field.
Qed.

Lemma uniform5_zeros : uniform5 [0; 0; 0; 0; 0].
Proof.
  unfold uniform5, log_softmax_row.
  assert (rsum (exp <$> [0; 0; 0; 0; 0]) = 5) as ->.
  { simpl. rewrite exp_0. lra. }
  simpl. repeat f_equal; lra.
Qed.

Lemma compute_loss_uniform_scenario_witness :
  compute_loss (readouts_tensor 2 3 5
                  [[[0; 0; 0; 0; 0]; [0; 0; 0; 0; 0]; [0; 0; 0; 0; 0]];
                   [[0; 0; 0; 0; 0]; [0; 0; 0; 0; 0]; [0; 0; 0; 0; 0]]])
               (matrix_tensor 2 3 [[1; 2; 3]; [4; 0; 0]]%Z)
               (vector_tensor [3; 1]%Z) 5
  = Ok (Finite (ln 5)).
Proof.
  apply (compute_loss_uniform_scenario
           [0; 0; 0; 0; 0] [0; 0; 0; 0; 0] [0; 0; 0; 0; 0]
           [0; 0; 0; 0; 0] [0; 0; 0; 0; 0] [0; 0; 0; 0; 0] 0).
  - repeat constructor; apply uniform5_zeros.
  - lia.
Defined.

(** ** C10: one example: the perplexity is the exponential of the clamped loss *)

Lemma xquot_one (a : xreal) : nonneg_x a -> xquot a 1 = a.
Proof.
  destruct a as [r| | |]; simpl; intros Ha; try done.
  - rewrite decide_False by lra. rewrite Rdiv_1_r. apply fin_nonneg; lra.
  - by rewrite decide_False by lra.
Qed.

Lemma nll_three_to_one : spec_nll [ln 3; 0] 0 = ln 4 - ln 3.
Proof.
  unfold spec_nll, log_softmax_row. simpl. rewrite exp_0, exp_ln by lra.
  replace (3 + (1 + 0)) with 4 by lra. lra.
Qed.

Lemma ln_bounds (x : R) : 1 <= x -> 0 <= ln x <= x.
Proof.
  intros Hx. split.
  - rewrite <- ln_1. apply ln_le; lra.
  - apply ln_le_self. lra.
Qed.

(** Two examples of one position each, with losses [ln 2] and [ln (4/3)]:
    the mean of the perplexities is 5/3, the exponential of the mean loss is
    the square root of 8/3. *)
Lemma two_example_gap :
  exists loss ppl : R,
    compute_loss (readouts_tensor 2 1 2 [[[0; 0]]; [[ln 3; 0]]])
                 (matrix_tensor 2 1 [[0]; [0]]%Z) (vector_tensor [1; 1]%Z) 2
    = Ok (Finite loss) /\
    compute_ppl 2 (readouts_tensor 2 1 2 [[[0; 0]]; [[ln 3; 0]]])
                (matrix_tensor 2 1 [[0]; [0]]%Z) (vector_tensor [1; 1]%Z)
    = Ok (Finite ppl) /\
    ppl <> exp (Rmin loss 100).
Proof.
  assert (exp (ln 2) = 2) as E2 by (apply exp_ln; lra).
  assert (exp (ln 4 - ln 3) = 4 / 3) as E43.
  { unfold Rminus. rewrite exp_plus, exp_Ropp, !exp_ln by lra. lra. }
  pose proof (ln_bounds 2) as L2. pose proof (ln_bounds 3) as L3.
  pose proof (ln_bounds 4) as L4.
  assert (ln 3 <= ln 4) as L34 by (apply ln_le; lra).
  assert (readouts_shaped 2 1 2 [[[0; 0]]; [[ln 3; 0]]]) as Hrs.
  { split; [done|]. by repeat constructor. }
  assert (matrix_shaped 2 1 [[0]; [0]]%Z) as Hts.
  { split; [done|]. by repeat constructor. }
  assert (padding_in_range [[[0; 0]]; [[ln 3; 0]]] [[0]; [0]]%Z [1; 1]%Z) as Hpad.
  { apply padding_in_range_all. repeat constructor.
    - rewrite nll_even. unfold float_limit. lra.
    - rewrite nll_three_to_one. unfold float_limit. lra. }
  assert (zip_with spec_example_loss (zip [[[0; 0]]; [[ln 3; 0]]] [[0]; [0]]%Z)
                   [1; 1]%Z
          = [ln 2 + 0; ln 4 - ln 3 + 0]) as Hlosses.
  { change (zip_with spec_example_loss
              (zip [[[0; 0]]; [[ln 3; 0]]] [[0]; [0]]%Z) [1; 1]%Z)
      with [spec_nll [0; 0] 0 + 0; spec_nll [ln 3; 0] 0 + 0].
    by rewrite nll_even, nll_three_to_one. }
  assert (zip_with spec_example_ppl (zip [[[0; 0]]; [[ln 3; 0]]] [[0]; [0]]%Z)
                   [1; 1]%Z
          = [2; 4 / 3]) as Hppls.
  { change (zip_with spec_example_ppl
              (zip [[[0; 0]]; [[ln 3; 0]]] [[0]; [0]]%Z) [1; 1]%Z)
      with [exp (Rmin ((spec_nll [0; 0] 0 + 0) / 1) 100);
            exp (Rmin ((spec_nll [ln 3; 0] 0 + 0) / 1) 100)].
    rewrite nll_even, nll_three_to_one.
    replace ((ln 2 + 0) / 1) with (ln 2) by lra.
    replace ((ln 4 - ln 3 + 0) / 1) with (ln 4 - ln 3) by lra.
    rewrite !below_ceiling by lra. by rewrite E2, E43. }
  exists ((ln 2 + (ln 4 - ln 3)) / 2), (5 / 3). split; [|split].
  - rewrite (compute_loss_in_range 2 1 2); cycle 1.
    + lia.
    + done.
    + done.
    + done.
    + repeat constructor; lia.
    + done.
    + rewrite Hlosses. simpl. unfold float_limit. lra.
    + f_equal. unfold spec_masked_nll. rewrite Hlosses. simpl.
      rewrite xdiv_finite by lra. f_equal. lra.
  - rewrite (compute_ppl_in_range 2 1 2); cycle 1.
    + lia.
    + done.
    + done.
    + done.
    + repeat constructor; lia.
    + repeat constructor; lia.
    + done.
    + rewrite Hlosses. repeat constructor; unfold float_limit; lra.
    + rewrite Hppls. simpl. unfold float_limit. lra.
    + f_equal. unfold spec_ppl. rewrite Hppls. simpl.
      rewrite xdiv_finite by lra. f_equal. lra.
  - intros Heq.
    pose proof (exp_le _ _ (Rmin_l ((ln 2 + (ln 4 - ln 3)) / 2) 100)) as Hle.
    rewrite <- Heq in Hle.
    assert (exp ((ln 2 + (ln 4 - ln 3)) / 2) * exp ((ln 2 + (ln 4 - ln 3)) / 2)
            = 8 / 3) as Hsq.
    { rewrite <- exp_plus.
      replace ((ln 2 + (ln 4 - ln 3)) / 2 + (ln 2 + (ln 4 - ln 3)) / 2)
        with (ln 2 + (ln 4 - ln 3)) by lra.
      rewrite exp_plus, E2, E43. lra. }
    nra.
Qed.

(** C10.  For a batch of one example with positive true length and targets
    that are word ids, [compute_loss] and [compute_ppl] (with the class count
    equal to the vocabulary size) both return, and the perplexity is the
    float exponential of the loss clamped above by 100: the two agree also
    when the loss is infinite or NaN, and when the exponential overflows.
    With two examples the two values can differ. *)
Theorem single_example_ppl_is_exp_loss (T C : nat) (ex : list (list R))
  (tgts : list Z) (len : Z) :
  (0 < C)%nat ->
  readouts_shaped 1 T C [ex] -> matrix_shaped 1 T [tgts] ->
  targets_in_range C [tgts] ->
  (0 < len)%Z ->
  (exists loss : xreal,
     compute_loss (readouts_tensor 1 T C [ex]) (matrix_tensor 1 T [tgts])
                  (vector_tensor [len]) C = Ok loss /\
     compute_ppl C (readouts_tensor 1 T C [ex]) (matrix_tensor 1 T [tgts])
                 (vector_tensor [len]) = Ok (xexp (xmin loss 100))) /\
  (exists loss ppl : R,
     compute_loss (readouts_tensor 2 1 2 [[[0; 0]]; [[ln 3; 0]]])
                  (matrix_tensor 2 1 [[0]; [0]]%Z) (vector_tensor [1; 1]%Z) 2
     = Ok (Finite loss) /\
     compute_ppl 2 (readouts_tensor 2 1 2 [[[0; 0]]; [[ln 3; 0]]])
                 (matrix_tensor 2 1 [[0]; [0]]%Z) (vector_tensor [1; 1]%Z)
     = Ok (Finite ppl) /\
     ppl <> exp (Rmin loss 100)).
Proof.
  intros HC Hrs Hts Hrange Hlen. split; [|apply two_example_gap].
  exists (xquot (xsum (masked_losses ex tgts len)) (IZR len)). split.
  - rewrite (compute_loss_flat 1 T C) by done.
    unfold masked_rows. cbn [zip zip_with concat fst snd zsum foldr].
    by rewrite app_nil_r, Z.add_0_r.
  - rewrite (compute_ppl_flat 1 T C) by done. f_equal.
    unfold tmean. cbn [data zip zip_with length xsum foldr].
    rewrite xadd_zero_r by apply example_ppl_nonneg.
    simpl INR. rewrite xquot_one by apply example_ppl_nonneg.
    unfold example_ppl. cbn [fst snd]. by rewrite Rmult_1_r.
Qed.

Lemma single_example_ppl_is_exp_loss_witness :
  exists loss : xreal,
    compute_loss (readouts_tensor 1 2 2 [[[0; 0]; [1; 0]]])
                 (matrix_tensor 1 2 [[0; 1]]%Z) (vector_tensor [2]%Z) 2
    = Ok loss /\
    compute_ppl 2 (readouts_tensor 1 2 2 [[[0; 0]; [1; 0]]])
                (matrix_tensor 1 2 [[0; 1]]%Z) (vector_tensor [2]%Z)
    = Ok (xexp (xmin loss 100)).
Proof.
  apply (single_example_ppl_is_exp_loss 2 2 [[0; 0]; [1; 0]] [0; 1]%Z 2).
  - lia.
  - split; [reflexivity|]. repeat constructor.
  - split; [reflexivity|]. repeat constructor.
  - repeat constructor; lia.
  - lia.
Defined.

(** ** C9: the phrase-bank aggregation *)























(** ** C6: reconstruction from a checkpoint *)

Section CheckpointProperties.

Variable enc_layout : nat -> nat -> gmap string (list nat).
Variable sp_layout : nat -> nat -> gmap string (list nat).
Variable wd_layout : nat -> nat -> nat -> gmap string (list nat).
Variable wd_emb_attr : string.
Variable init : list nat -> list R.

Lemma fresh_params_shapes (layout : gmap string (list nat)) :
  shape <$> fresh_params init layout = layout.
Proof.
  unfold fresh_params. rewrite <- map_fmap_compose.
  rewrite <- (map_fmap_id layout) at 2. apply map_fmap_ext. done.
Qed.

Lemma load_state_dict_fits (attr : string) (e : embedding_obj)
  (layout : gmap string (list nat)) (sd : state_dict) (h : store)
  (table : tensor R) :
  h !! weight e = Some table ->
  shape table = [num_embeddings e; embedding_dim e] ->
  shape <$> sd
  = expected_shapes attr (num_embeddings e) (embedding_dim e) layout ->
  exists w : tensor R,
    sd !! (attr +:+ ".weight") = Some w /\
    shape w = [num_embeddings e; embedding_dim e] /\
    load_state_dict (Component attr e (fresh_params init layout)) sd h
    = Ok (Component attr e (delete (attr +:+ ".weight") sd),
          <[weight e := w]> h).
Proof.
  intros Hh Hs Hfit.
  assert ((shape <$> sd) !! (attr +:+ ".weight")
          = Some [num_embeddings e; embedding_dim e]) as Hk.
  { rewrite Hfit. unfold expected_shapes. apply lookup_insert_eq. }
  rewrite lookup_fmap in Hk.
  destruct (sd !! (attr +:+ ".weight")) as [w|] eqn:Hw; [|done].
  injection Hk as Hk. exists w. split; [done|]. split; [done|].
  unfold load_state_dict, emb_key. cbn [emb emb_attr own].
  rewrite Hh, fresh_params_shapes, Hs.
  unfold expected_shapes in Hfit. rewrite decide_True by done.
  by rewrite Hw.
Qed.

Lemma load_state_dict_misfit (attr : string) (e : embedding_obj)
  (layout : gmap string (list nat)) (sd : state_dict) (h : store)
  (table : tensor R) :
  h !! weight e = Some table ->
  shape table = [num_embeddings e; embedding_dim e] ->
  shape <$> sd
  <> expected_shapes attr (num_embeddings e) (embedding_dim e) layout ->
  load_state_dict (Component attr e (fresh_params init layout)) sd h
  = Raise RuntimeError.
Proof.
  intros Hh Hs Hfit.
  unfold load_state_dict, emb_key. cbn [emb emb_attr own].
  rewrite Hh, fresh_params_shapes, Hs.
  unfold expected_shapes in Hfit. by rewrite decide_False.
Qed.

Lemma getitem_Some {V} (m : gmap string V) (k : string) (x : V) :
  m !! k = Some x -> getitem m k = Ok x.
Proof. intros Hx. unfold getitem. by rewrite Hx. Qed.

Lemma load_from_checkpoint_ok (ckpt : gmap string state_dict) (h : store)
  (enc_sd sp_sd wd_sd : state_dict) (w : tensor R) (v d : nat) :
  ckpt !! "encoder" = Some enc_sd ->
  enc_sd !! "embedding.weight" = Some w ->
  shape w = [v; d] ->
  ckpt !! "sp_decoder" = Some sp_sd ->
  ckpt !! "wd_decoder" = Some wd_sd ->
  sections_fit enc_layout sp_layout wd_layout wd_emb_attr v d enc_sd sp_sd wd_sd ->
  exists (table : tensor R),
    wd_sd !! (wd_emb_attr +:+ ".weight") = Some table /\
    shape table = [v; d] /\
    load_from_checkpoint enc_layout sp_layout wd_layout wd_emb_attr init ckpt h
    = Ok (Candela v 0
            (Component "embedding" (Embedding (fresh (dom h)) v d)
                       (delete "embedding.weight" enc_sd))
            (Component "embedding" (Embedding (fresh (dom h)) v d)
                       (delete "embedding.weight" sp_sd))
            (Component wd_emb_attr (Embedding (fresh (dom h)) v d)
                       (delete (wd_emb_attr +:+ ".weight") wd_sd)),
          <[fresh (dom h) := table]> h).
Proof.
  intros Henc Hw Hshape Hsp Hwd (Fe & Fs & Fw).
  unfold load_from_checkpoint.
  rewrite (getitem_Some _ _ _ Henc), bind_Ok.
  rewrite (getitem_Some _ _ _ Hw), bind_Ok.
  unfold from_pretrained. rewrite Hshape, bind_Ok. cbv beta iota zeta.
  unfold candela_init. cbn [enc sp_dec wd_dec word_vocab_size global_steps
                            num_embeddings embedding_dim].
  set (e := Embedding (fresh (dom h)) v d).
  unfold EncoderRNN, SentencePlanner, WordDecoder. rewrite bind_Ok.
  destruct (load_state_dict_fits "embedding" e (enc_layout d 512) enc_sd
              (<[fresh (dom h) := w]> h) w) as (w1 & Hw1 & Hs1 & ->);
    [apply lookup_insert_eq|done|done|].
  rewrite bind_Ok. cbv beta iota.
  rewrite (getitem_Some _ _ _ Hsp), bind_Ok.
  destruct (load_state_dict_fits "embedding" e (sp_layout 512 d) sp_sd
              (<[weight e := w1]> (<[fresh (dom h) := w]> h)) w1)
    as (w2 & Hw2 & Hs2 & ->); [apply lookup_insert_eq|done|done|].
  rewrite bind_Ok. cbv beta iota.
  rewrite (getitem_Some _ _ _ Hwd), bind_Ok.
  destruct (load_state_dict_fits wd_emb_attr e (wd_layout 512 d v) wd_sd
              (<[weight e := w2]> (<[weight e := w1]> (<[fresh (dom h) := w]> h)))
              w2)
    as (w3 & Hw3 & Hs3 & ->); [apply lookup_insert_eq|done|done|].
  rewrite bind_Ok. cbv beta iota.
  exists w3. split; [done|]. split; [done|].
  subst e. cbn [weight]. by rewrite !insert_insert_eq.
Qed.

Lemma load_from_checkpoint_misfit (ckpt : gmap string state_dict) (h : store)
  (enc_sd sp_sd wd_sd : state_dict) (w : tensor R) (v d : nat) :
  ckpt !! "encoder" = Some enc_sd ->
  enc_sd !! "embedding.weight" = Some w ->
  shape w = [v; d] ->
  ckpt !! "sp_decoder" = Some sp_sd ->
  ckpt !! "wd_decoder" = Some wd_sd ->
  ~ sections_fit enc_layout sp_layout wd_layout wd_emb_attr v d
      enc_sd sp_sd wd_sd ->
  load_from_checkpoint enc_layout sp_layout wd_layout wd_emb_attr init ckpt h
  = Raise RuntimeError.
Proof.
  intros Henc Hw Hshape Hsp Hwd Hnfit.
  unfold load_from_checkpoint.
  rewrite (getitem_Some _ _ _ Henc), bind_Ok.
  rewrite (getitem_Some _ _ _ Hw), bind_Ok.
  unfold from_pretrained. rewrite Hshape, bind_Ok. cbv beta iota zeta.
  unfold candela_init. cbn [enc sp_dec wd_dec word_vocab_size global_steps
                            num_embeddings embedding_dim].
  set (e := Embedding (fresh (dom h)) v d).
  unfold EncoderRNN, SentencePlanner, WordDecoder. rewrite bind_Ok.
  destruct (decide (shape <$> enc_sd
                    = expected_shapes "embedding" v d (enc_layout d 512)))
    as [Fe|Fe]; cycle 1.
  { rewrite (load_state_dict_misfit "embedding" e _ enc_sd _ w);
      [done|apply lookup_insert_eq|done|done]. }
  destruct (load_state_dict_fits "embedding" e (enc_layout d 512) enc_sd
              (<[fresh (dom h) := w]> h) w) as (w1 & Hw1 & Hs1 & ->);
    [apply lookup_insert_eq|done|done|].
  rewrite bind_Ok. cbv beta iota.
  rewrite (getitem_Some _ _ _ Hsp), bind_Ok.
  destruct (decide (shape <$> sp_sd
                    = expected_shapes "embedding" v d (sp_layout 512 d)))
    as [Fs|Fs]; cycle 1.
  { rewrite (load_state_dict_misfit "embedding" e _ sp_sd _ w1);
      [done|apply lookup_insert_eq|done|done]. }
  destruct (load_state_dict_fits "embedding" e (sp_layout 512 d) sp_sd
              (<[weight e := w1]> (<[fresh (dom h) := w]> h)) w1)
    as (w2 & Hw2 & Hs2 & ->); [apply lookup_insert_eq|done|done|].
  rewrite bind_Ok. cbv beta iota.
  rewrite (getitem_Some _ _ _ Hwd), bind_Ok.
  rewrite (load_state_dict_misfit wd_emb_attr e _ wd_sd _ w2);
    [done|apply lookup_insert_eq|done|].
  intros Fw. apply Hnfit. by repeat split.
Qed.

(** C6.  For a checkpoint with an encoder section whose
    [embedding.weight] has shape [[v; d]], a planner section and a word
    decoder section: the embedding table is a new object built from that
    weight, with [v] and [d] read off its shape.  When the three sections
    have the names and shapes of the freshly constructed sub-modules, the
    model is returned: its vocabulary size is [v], its three sub-modules
    hold that one table object, each owns the parameters of its section,
    and the table has shape [[v; d]]; its content is the table of the
    section loaded last, which is the encoder's weight when the sections
    store one shared table.  Otherwise a [RuntimeError] is raised. *)
Theorem load_from_checkpoint_reconstructs (ckpt : gmap string state_dict)
  (h : store) (enc_sd sp_sd wd_sd : state_dict) (w : tensor R) (v d : nat) :
  ckpt !! "encoder" = Some enc_sd ->
  enc_sd !! "embedding.weight" = Some w ->
  shape w = [v; d] ->
  ckpt !! "sp_decoder" = Some sp_sd ->
  ckpt !! "wd_decoder" = Some wd_sd ->
  exists e : nat,
    h !! e = None /\
    from_pretrained w h = Ok (Embedding e v d, <[e := w]> h) /\
    (sections_fit enc_layout sp_layout wd_layout wd_emb_attr v d
                  enc_sd sp_sd wd_sd ->
     exists (m : candela) (table : tensor R),
       load_from_checkpoint enc_layout sp_layout wd_layout wd_emb_attr init
                            ckpt h
       = Ok (m, <[e := table]> h) /\
       word_vocab_size m = v /\
       emb (enc m) = Embedding e v d /\
       emb (sp_dec m) = Embedding e v d /\
       emb (wd_dec m) = Embedding e v d /\
       own (enc m) = delete "embedding.weight" enc_sd /\
       own (sp_dec m) = delete "embedding.weight" sp_sd /\
       own (wd_dec m) = delete (wd_emb_attr +:+ ".weight") wd_sd /\
       shape table = [v; d] /\
       wd_sd !! (wd_emb_attr +:+ ".weight") = Some table /\
       (wd_sd !! (wd_emb_attr +:+ ".weight") = Some w -> table = w)) /\
    (~ sections_fit enc_layout sp_layout wd_layout wd_emb_attr v d
                    enc_sd sp_sd wd_sd ->
     load_from_checkpoint enc_layout sp_layout wd_layout wd_emb_attr init
                          ckpt h
     = Raise RuntimeError).
Proof.
  intros Henc Hw Hshape Hsp Hwd. exists (fresh (dom h)).
  split; [apply not_elem_of_dom, is_fresh|].
  split; [unfold from_pretrained; by rewrite Hshape|].
  split.
  - intros Hfit.
    destruct (load_from_checkpoint_ok ckpt h enc_sd sp_sd wd_sd w v d)
      as (table & Htab & Hs & ->); try done.
    eexists _, table. split; [done|]. repeat split; try done.
    intros Hsame. congruence.
  - intros Hnfit. by eapply load_from_checkpoint_misfit.
Qed.

End CheckpointProperties.

Lemma load_from_checkpoint_reconstructs_witness :
  (exists (m : candela) (h' : store),
     load_from_checkpoint (fun _ _ => ∅) (fun _ _ => ∅) (fun _ _ _ => ∅)
                          "embedding" (fun _ => [])
                          (table_only_ckpt (Tensor [1; 1]%nat [0])) ∅
     = Ok (m, h') /\
     word_vocab_size m = 1%nat /\
     emb (enc m) = emb (sp_dec m) /\ emb (sp_dec m) = emb (wd_dec m)) /\
  load_from_checkpoint (fun _ _ => ∅) (fun _ _ => ∅) (fun _ _ _ => ∅)
                       "embedding" (fun _ => [])
                       (table_only_ckpt (Tensor [2; 1]%nat [0; 0])) ∅
  = Raise RuntimeError.
Proof.
  split.
  - destruct (load_from_checkpoint_reconstructs
                (fun _ _ => ∅) (fun _ _ => ∅) (fun _ _ _ => ∅)
                "embedding" (fun _ => [])
                (table_only_ckpt (Tensor [1; 1]%nat [0])) ∅
                (table_section (Tensor [1; 1]%nat [0]))
                (table_section (Tensor [1; 1]%nat [0]))
                (table_section (Tensor [1; 1]%nat [0]))
                (Tensor [1; 1]%nat [0]) 1 1)
      as (e & _ & _ & Hok & _).
    + reflexivity.
    + reflexivity.
    + reflexivity.
    + reflexivity.
    + reflexivity.
    + destruct Hok as (m & table & Hload & Hv & He & Hs & Hw & _).
      * repeat split; unfold expected_shapes, table_section;
          rewrite map_fmap_singleton; reflexivity.
      * exists m, (<[e := table]> ∅). rewrite He, Hs, Hw.
        repeat split; assumption.
  - destruct (load_from_checkpoint_reconstructs
                (fun _ _ => ∅) (fun _ _ => ∅) (fun _ _ _ => ∅)
                "embedding" (fun _ => [])
                (table_only_ckpt (Tensor [2; 1]%nat [0; 0])) ∅
                (table_section (Tensor [1; 1]%nat [0]))
                (table_section (Tensor [1; 1]%nat [0]))
                (table_section (Tensor [2; 1]%nat [0; 0]))
                (Tensor [1; 1]%nat [0]) 1 1)
      as (e & _ & _ & _ & Hbad).
    + reflexivity.
    + reflexivity.
    + reflexivity.
    + reflexivity.
    + reflexivity.
    + apply Hbad. intros (_ & _ & Hfit).
      assert ((shape <$> table_section (Tensor [2; 1]%nat [0; 0]))
                !! "embedding.weight"
              = expected_shapes "embedding" 1 1 ∅ !! "embedding.weight") as Hk
        by (rewrite Hfit; reflexivity).
      discriminate Hk.
Defined.

(** * Further properties of the code *)

(** ** Errors of the shared loss prefix *)

Lemma mapM_Raise {A B} (f : A -> result B) (e : exn) (l : list A) :
  Forall (fun x => f x = Raise e \/ exists y, f x = Ok y) l ->
  Exists (fun x => f x = Raise e) l ->
  mapM f l = Raise e.
Proof.
  induction 1 as [|x l [Hx|[y Hy]] _ IH]; intros Hex.
  - inversion Hex.
  - cbn. by rewrite Hx.
  - cbn. rewrite Hy. cbn.
    inversion Hex as [? ? Hhd|? ? Htl]; subst; [congruence|].
    by rewrite IH.
Qed.

Lemma pick_out_of_range {A} (row : list A) (y : Z) :
  ~ (0 <= y < Z.of_nat (length row))%Z -> pick row y = Raise RuntimeError.
Proof.
  intros Hy. unfold pick. destruct (decide (0 <= y)%Z) as [Hpos|Hneg]; [|done].
  rewrite lookup_ge_None_2; [done|lia].
Qed.

Lemma gather_rows_raise (C : nat) (ps : list (list R)) (ys : list Z) :
  length ps = length ys ->
  Forall (fun p => length p = C) ps ->
  Exists (fun y => ~ (0 <= y < Z.of_nat C)%Z) ys ->
  mapM (fun '(row, idx) => mapM (pick row) idx)
       (zip (log_softmax_f32 <$> ps) ((fun y => [y]) <$> ys))
  = Raise RuntimeError.
Proof.
  intros Hlen Hps Hex. apply mapM_Raise.
  - clear Hex. revert ys Hlen; induction Hps as [|p ps Hp _ IH];
      intros [|y ys] Hlen; csimpl; try done.
    constructor; [|apply IH; simpl in Hlen; lia].
    destruct (decide (0 <= y < Z.of_nat C)%Z) as [Hy|Hy].
    + right. eexists. cbn.
      rewrite pick_in_range by lia. done.
    + left. cbn.
      rewrite pick_out_of_range by (rewrite log_softmax_f32_length; lia). done.
  - revert ps Hlen Hps; induction Hex as [y ys Hy|y ys _ IH];
      intros [|p ps] Hlen Hps; simpl in Hlen; try done;
      inversion Hps as [|? ? Hp Hps']; subst; csimpl.
    + apply Exists_cons_hd. cbn.
      rewrite pick_out_of_range by (rewrite log_softmax_f32_length; lia). done.
    + apply Exists_cons_tl, IH; [lia|done].
Qed.

Lemma masked_prefix_raises {X} (K : tensor xreal -> result X) (B T C : nat)
  (rs : list (list (list R))) (ts : list (list Z)) (lens : list Z) :
  (0 < C)%nat ->
  readouts_shaped B T C rs -> matrix_shaped B T ts ->
  ~ targets_in_range C ts ->
  (readouts_flat ← view_rows (readouts_tensor B T C rs) C;
   log_probs_flat ← log_softmax_dim1 readouts_flat;
   target_flat ← view_rows (matrix_tensor B T ts) 1;
   gathered ← gather_dim1 log_probs_flat target_flat;
   let losses_flat := tmap xneg gathered in
   losses ← view_as losses_flat (shape (matrix_tensor B T ts));
   max_len ← size_at (matrix_tensor B T ts) 1;
   let mask := get_sequence_mask_from_length (vector_tensor lens) max_len in
   losses ← broadcast2 xmul losses (tmap Finite (tfloat_bool mask));
   K losses)
  = Raise RuntimeError.
Proof.
  intros HC Hrs Hts Hrange.
  destruct (readouts_shaped_concat _ _ _ _ Hrs) as [Hn Hp].
  pose proof (matrix_shaped_concat _ _ _ Hts) as Hm.
  rewrite view_rows_readouts, bind_Ok by done.
  rewrite log_softmax_positions, bind_Ok by done.
  rewrite view_rows_targets, bind_Ok.
  unfold gather_dim1. cbn [shape data]. rewrite decide_True by done.
  rewrite chunks_concat'; cycle 1.
  { by rewrite length_fmap. }
  { apply Forall_fmap. eapply Forall_impl; [exact Hp|].
    intros p Hp'. simpl. by rewrite log_softmax_f32_length. }
  rewrite <- Hm at 1. rewrite chunks_singletons.
  rewrite (gather_rows_raise C); [done|lia|done|].
  apply not_Forall_Exists; [apply _|].
  intros Hall. apply Hrange. by apply Forall_concat.
Qed.

(** X1.  A target that is not a class index makes both [compute_loss] and
    [compute_ppl] raise a [RuntimeError], wherever it stands: the padded
    region is gathered before it is masked. *)
Theorem target_out_of_range_raises (B T C : nat) (rs : list (list (list R)))
  (ts : list (list Z)) (lens : list Z) :
  (0 < C)%nat ->
  readouts_shaped B T C rs -> matrix_shaped B T ts ->
  ~ targets_in_range C ts ->
  compute_loss (readouts_tensor B T C rs) (matrix_tensor B T ts)
               (vector_tensor lens) C = Raise RuntimeError /\
  compute_ppl C (readouts_tensor B T C rs) (matrix_tensor B T ts)
              (vector_tensor lens) = Raise RuntimeError.
Proof.
  intros HC Hrs Hts Hrange. split.
  - unfold compute_loss. by apply masked_prefix_raises.
  - unfold compute_ppl, per_example_ppl. cbv zeta.
    by rewrite (masked_prefix_raises _ B T C rs ts lens).
Qed.

Lemma target_out_of_range_raises_witness :
  compute_loss (readouts_tensor 1 2 2 [[[0; 0]; [0; 0]]])
               (matrix_tensor 1 2 [[0; 2]]%Z) (vector_tensor [1]%Z) 2
  = Raise RuntimeError /\
  compute_ppl 2 (readouts_tensor 1 2 2 [[[0; 0]; [0; 0]]])
              (matrix_tensor 1 2 [[0; 2]]%Z) (vector_tensor [1]%Z)
  = Raise RuntimeError.
Proof.
  apply target_out_of_range_raises.
  - lia.
  - split; [reflexivity|]. repeat constructor.
  - split; [reflexivity|]. repeat constructor.
  - intros Hall. inversion Hall as [|? ? Hrow _]; subst.
    inversion Hrow as [|? ? _ Hrest]; subst.
    inversion Hrest as [|? ? Hy _]; subst. lia.
Defined.

(** ** Shifting the scores of a position *)

Lemma rsum_exp_shift (p : list R) (c : R) :
  rsum (exp <$> shift_position p c) = exp c * rsum (exp <$> p).
Proof.
  unfold shift_position. induction p as [|x p IH]; csimpl; [lra|].
  rewrite IH, exp_plus. lra.
Qed.

Lemma rsum_exp_pos (p : list R) : p <> [] -> 0 < rsum (exp <$> p).
Proof.
  destruct p as [|x p]; [done|]. intros _. csimpl.
  pose proof (exp_pos x). pose proof (rsum_exp_nonneg p). lra.
Qed.

(** Log-softmax does not see a constant added to all scores. *)
Lemma log_softmax_row_shift (p : list R) (c : R) :
  log_softmax_row (shift_position p c) = log_softmax_row p.
Proof.
  destruct (decide (p = [])) as [->|Hp]; [done|].
  unfold log_softmax_row. rewrite rsum_exp_shift.
  rewrite ln_mult by (apply exp_pos || by apply rsum_exp_pos).
  rewrite ln_exp. unfold shift_position. rewrite <- list_fmap_compose.
  apply list_fmap_ext. intros i x _. simpl. lra.
Qed.

Lemma spec_nll_shift (p : list R) (c : R) (y : Z) :
  spec_nll (shift_position p c) y = spec_nll p y.
Proof. unfold spec_nll. by rewrite log_softmax_row_shift. Qed.

Lemma shift_readouts_shaped (B T C : nat) (rs : list (list (list R)))
  (cs : list (list R)) :
  readouts_shaped B T C rs -> matrix_shaped B T cs ->
  readouts_shaped B T C (shift_readouts rs cs).
Proof.
  intros [HB Hall] [HcB Hc]. unfold shift_readouts. split.
  - rewrite length_zip_with. lia.
  - clear HB HcB. revert cs Hc; induction Hall as [|ex rs [HT HC] _ IH];
      intros [|c cs] Hc; simpl; try done.
    inversion Hc as [|? ? HcT Hc']; subst. constructor; [|by apply IH].
    split; [rewrite length_zip_with; lia|].
    clear -HC. revert c; induction HC as [|p ex Hp _ IH]; intros [|x c]; simpl;
      try done.
    constructor; [|apply IH]. unfold shift_position. by rewrite length_fmap.
Qed.

Lemma shifted_masked_losses (ex : list (list R)) (c : list R) (tgts : list Z)
  (len : Z) :
  length c = length ex ->
  masked_losses (zip_with shift_position ex c) tgts len
  = masked_losses ex tgts len.
Proof.
  intros Hc. unfold masked_losses. f_equal.
  revert c tgts Hc; induction ex as [|p ex IH];
    intros [|x c] [|y tgts] Hc; simpl in *; try done.
  rewrite spec_nll_shift, IH by lia. done.
Qed.

Lemma shifted_masked_rows (T : nat) (rs : list (list (list R)))
  (cs : list (list R)) (ts : list (list Z)) (lens : list Z) :
  length cs = length rs ->
  Forall (fun ex => length ex = T) rs -> Forall (fun c => length c = T) cs ->
  masked_rows (shift_readouts rs cs) ts lens = masked_rows rs ts lens.
Proof.
  unfold masked_rows, shift_readouts. intros Hlen Hrs. revert cs ts lens Hlen.
  induction Hrs as [|ex rs Hex _ IH]; intros [|c cs] [|t ts] [|len lens] Hlen Hcs;
    simpl in *; try done.
  inversion Hcs; subst. rewrite shifted_masked_losses by lia.
  rewrite IH by (done || lia). done.
Qed.

Lemma shifted_example_ppls (T : nat) (rs : list (list (list R)))
  (cs : list (list R)) (ts : list (list Z)) (lens : list Z) :
  length cs = length rs ->
  Forall (fun ex => length ex = T) rs -> Forall (fun c => length c = T) cs ->
  zip_with example_ppl (zip (shift_readouts rs cs) ts) lens
  = zip_with example_ppl (zip rs ts) lens.
Proof.
  unfold shift_readouts. intros Hlen Hrs. revert cs ts lens Hlen.
  induction Hrs as [|ex rs Hex _ IH]; intros [|c cs] [|t ts] [|len lens] Hlen Hcs;
    simpl in *; try done.
  inversion Hcs; subst. rewrite IH by (done || lia). f_equal.
  unfold example_ppl. cbn [fst snd]. by rewrite shifted_masked_losses by lia.
Qed.

(** X2.  Adding a constant to all the scores of a position, a constant of
    its own for every position, changes neither the loss nor the
    perplexity. *)
Theorem shift_invariance (B T C : nat) (rs : list (list (list R)))
  (cs : list (list R)) (ts : list (list Z)) (lens : list Z) :
  (0 < C)%nat ->
  readouts_shaped B T C rs -> matrix_shaped B T cs -> matrix_shaped B T ts ->
  length lens = B -> targets_in_range C ts ->
  (exists v,
     compute_loss (readouts_tensor B T C rs) (matrix_tensor B T ts)
                  (vector_tensor lens) C = Ok v /\
     compute_loss (readouts_tensor B T C (shift_readouts rs cs))
                  (matrix_tensor B T ts) (vector_tensor lens) C = Ok v) /\
  (exists ppls,
     per_example_ppl C (readouts_tensor B T C rs) (matrix_tensor B T ts)
                     (vector_tensor lens) = Ok ppls /\
     per_example_ppl C (readouts_tensor B T C (shift_readouts rs cs))
                     (matrix_tensor B T ts) (vector_tensor lens) = Ok ppls).
Proof.
  intros HC Hrs Hcs Hts Hlens Hrange.
  pose proof (shift_readouts_shaped B T C rs cs Hrs Hcs) as Hrs'.
  pose proof (readouts_shaped_rows _ _ _ _ Hrs) as Hrows.
  assert (length cs = length rs) as Hlen
    by (destruct Hrs as [-> _], Hcs as [-> _]; done).
  split.
  - eexists. split; [by apply compute_loss_flat|].
    rewrite (compute_loss_flat B T C) by done.
    by rewrite (shifted_masked_rows T) by (done || by destruct Hcs).
  - eexists. split; [by apply per_example_ppl_general|].
    rewrite (per_example_ppl_general B T C) by done.
    by rewrite (shifted_example_ppls T) by (done || by destruct Hcs).
Qed.

Lemma shift_invariance_witness :
  (exists v,
     compute_loss (readouts_tensor 1 2 2 [[[0; 1]; [2; 0]]])
                  (matrix_tensor 1 2 [[0; 1]]%Z) (vector_tensor [2]%Z) 2 = Ok v /\
     compute_loss (readouts_tensor 1 2 2
                     (shift_readouts [[[0; 1]; [2; 0]]] [[5; -3]]))
                  (matrix_tensor 1 2 [[0; 1]]%Z) (vector_tensor [2]%Z) 2 = Ok v) /\
  (exists ppls,
     per_example_ppl 2 (readouts_tensor 1 2 2 [[[0; 1]; [2; 0]]])
                     (matrix_tensor 1 2 [[0; 1]]%Z) (vector_tensor [2]%Z)
     = Ok ppls /\
     per_example_ppl 2 (readouts_tensor 1 2 2
                          (shift_readouts [[[0; 1]; [2; 0]]] [[5; -3]]))
                     (matrix_tensor 1 2 [[0; 1]]%Z) (vector_tensor [2]%Z)
     = Ok ppls).
Proof.
  apply shift_invariance.
  - lia.
  - split; [reflexivity|]. repeat constructor.
  - split; [reflexivity|]. repeat constructor.
  - split; [reflexivity|]. repeat constructor.
  - reflexivity.
  - repeat constructor; lia.
Defined.

(** ** Sign and edge values of [compute_loss] *)




Lemma masked_invalid_cases (r : R) :
  0 <= r -> masked r false = Finite 0 \/ masked r false = NaN.
Proof.
  intros Hr. destruct (decide (float_limit <= r)) as [Hbig|Hbig].
  - right. by apply masked_overflow_invalid.
  - left. rewrite masked_in_range by lra. done.
Qed.

Lemma xsum_zero_or_nan (l : list xreal) :
  Forall (fun a => a = Finite 0 \/ a = NaN) l ->
  xsum l = Finite 0 \/ xsum l = NaN.
Proof.
  induction 1 as [|a l Ha _ IH]; [by left|].
  change (xsum (a :: l)) with (xadd a (xsum l)).
  destruct Ha as [-> | ->]; [|by right].
  destruct IH as [-> | ->]; [|by right].
  left. simpl. rewrite Rplus_0_r. apply fin_zero.
Qed.

(** The row of an example without a valid position: zeros, and a NaN for
    every position of infinite loss. *)
Lemma masked_losses_no_valid (ps : list (list R)) (ys : list Z) (len : Z) :
  (len <= 0)%Z ->
  Forall (fun a => a = Finite 0 \/ a = NaN) (masked_losses ps ys len).
Proof.
  intros Hlen. unfold masked_losses. rewrite spec_mask_nonpos by done.
  generalize (length ys). intros n.
  revert ys n; induction ps as [|p ps IH]; intros [|y ys] [|n]; simpl;
    try constructor.
  - apply masked_invalid_cases, spec_nll_nonneg.
  - apply IH.
Qed.

Lemma masked_rows_no_valid (rs : list (list (list R))) (ts : list (list Z))
  (lens : list Z) :
  Forall (fun len => len <= 0)%Z lens ->
  Forall (fun a => a = Finite 0 \/ a = NaN) (concat (masked_rows rs ts lens)).
Proof.
  unfold masked_rows. intros Hall. generalize (zip rs ts). intros exs.
  revert exs; induction Hall as [|len lens Hlen _ IH]; intros [|ex exs]; simpl;
    try constructor.
  apply Forall_app. split; [by apply masked_losses_no_valid|apply IH].
Qed.

Lemma xquot_zero_or_nan (a : xreal) :
  a = Finite 0 \/ a = NaN -> xquot a 0 = NaN.
Proof. intros [-> | ->]; simpl; [|done]. by rewrite !decide_True. Qed.

Lemma zsum_zeros (lens : list Z) :
  Forall (fun len => len = 0)%Z lens -> zsum lens = 0%Z.
Proof. induction 1 as [|len lens -> _ IH]; simpl; [done|]. by rewrite IH. Qed.

(** X4.  When every true length is 0 (an empty batch included), the sum of
    the masked losses and the sum of the lengths are both 0 and
    [compute_loss] returns NaN, the value of 0/0; it raises nothing. *)
Theorem compute_loss_no_valid_position (B T C : nat)
  (rs : list (list (list R))) (ts : list (list Z)) (lens : list Z) :
  (0 < C)%nat ->
  readouts_shaped B T C rs -> matrix_shaped B T ts -> length lens = B ->
  targets_in_range C ts ->
  Forall (fun len => len = 0)%Z lens ->
  compute_loss (readouts_tensor B T C rs) (matrix_tensor B T ts)
               (vector_tensor lens) C = Ok NaN.
Proof.
  intros HC Hrs Hts Hlens Hrange Hzero.
  rewrite (compute_loss_flat B T C) by done. f_equal.
  rewrite zsum_zeros by done.
  apply xquot_zero_or_nan, xsum_zero_or_nan, masked_rows_no_valid.
  eapply Forall_impl; [exact Hzero|]. intros len ->. done.
Qed.

Lemma compute_loss_no_valid_position_witness :
  compute_loss (readouts_tensor 1 2 2 [[[0; 1]; [2; 0]]])
               (matrix_tensor 1 2 [[0; 1]]%Z) (vector_tensor [0]%Z) 2
  = Ok NaN.
Proof.
  apply compute_loss_no_valid_position.
  - lia.
  - split; [reflexivity|]. repeat constructor.
  - split; [reflexivity|]. repeat constructor.
  - reflexivity.
  - repeat constructor; lia.
  - repeat constructor.
Defined.

Lemma clipped_masked_rows (T : nat) (rs : list (list (list R)))
  (ts : list (list Z)) (lens : list Z) :
  Forall (fun r => length r = T) ts ->
  masked_rows rs ts ((fun len => Z.min len (Z.of_nat T)) <$> lens)
  = masked_rows rs ts lens.
Proof.
  unfold masked_rows. intros Hrows.
  revert rs lens; induction Hrows as [|t ts Ht _ IH];
    intros [|ex rs] [|len lens]; csimpl; try done.
  rewrite IH. f_equal.
  unfold masked_losses. simpl. by rewrite Ht, spec_mask_clip.
Qed.

(** X5.  The mask sees a true length only up to the padded width, the
    denominator sees it whole: a length above the width is not rejected, the
    float sum of the masked losses is that of the clipped lengths and only
    the divisor differs. *)
Theorem overlong_lengths_only_scale (B T C : nat) (rs : list (list (list R)))
  (ts : list (list Z)) (lens : list Z) :
  (0 < C)%nat ->
  readouts_shaped B T C rs -> matrix_shaped B T ts -> length lens = B ->
  targets_in_range C ts ->
  exists total : xreal,
    compute_loss (readouts_tensor B T C rs) (matrix_tensor B T ts)
                 (vector_tensor lens) C
    = Ok (xquot total (IZR (zsum lens))) /\
    compute_loss (readouts_tensor B T C rs) (matrix_tensor B T ts)
                 (vector_tensor ((fun len => Z.min len (Z.of_nat T)) <$> lens)) C
    = Ok (xquot total (IZR (zsum ((fun len => Z.min len (Z.of_nat T)) <$> lens)))).
Proof.
  intros HC Hrs Hts Hlens Hrange.
  exists (xsum (concat (masked_rows rs ts lens))). split.
  - by apply compute_loss_flat.
  - rewrite (compute_loss_flat B T C) by (done || by rewrite length_fmap).
    rewrite (clipped_masked_rows T); [done|by destruct Hts].
Qed.

Lemma overlong_lengths_only_scale_witness :
  exists total : xreal,
    compute_loss (readouts_tensor 1 2 2 [[[0; 1]; [2; 0]]])
                 (matrix_tensor 1 2 [[0; 1]]%Z) (vector_tensor [5]%Z) 2
    = Ok (xquot total (IZR (zsum [5]%Z))) /\
    compute_loss (readouts_tensor 1 2 2 [[[0; 1]; [2; 0]]])
                 (matrix_tensor 1 2 [[0; 1]]%Z)
                 (vector_tensor ((fun len => Z.min len (Z.of_nat 2)) <$> [5]%Z)) 2
    = Ok (xquot total
            (IZR (zsum ((fun len => Z.min len (Z.of_nat 2)) <$> [5]%Z)))).
Proof.
  apply overlong_lengths_only_scale.
  - lia.
  - split; [reflexivity|]. repeat constructor.
  - split; [reflexivity|]. repeat constructor.
  - reflexivity.
  - repeat constructor; lia.
Defined.

(** ** Batches put together, and the order of the examples *)







